(** * Work-efficient scan and stream compaction (stream_compaction/efficient.cu)

    A shallow embedding of [StreamCompaction::Efficient]: the kernel
    [kernScanInclusive], the multi-level driver [scan] and [compact].

    Device arrays are lists of 32-bit signed integers (as [Z], every
    addition wrapped); array lengths and indices are natural numbers, and
    the padded length [1 << ilog2ceil(n)] is computed on [int] as in the
    source, so the results below are for [n <= 2^30], where it does not
    overflow. A kernel launch is a sequence of phases delimited by the
    barriers of the source; in a phase the threads run one after the
    other in the order of their global index. The block size
    [Common::block_size_efficient] is a parameter; the results need it to
    be a power of two, at least 2. *)

From Stdlib Require Import ZArith Lia Bool.
From stdpp Require Import base list.

Local Open Scope nat_scope.

(** ** 32-bit signed integers *)

Definition int_min : Z := (- 2 ^ 31)%Z.
Definition int_max : Z := (2 ^ 31 - 1)%Z.

Definition int32 (z : Z) : Prop := (int_min <= z <= int_max)%Z.

(** Two's complement wrap-around of a mathematical integer. *)
Definition wrap32 (z : Z) : Z := ((z + 2 ^ 31) mod 2 ^ 32 - 2 ^ 31)%Z.

(** [a + b] on [int]. *)
Definition add32 (a b : Z) : Z := wrap32 (a + b).

(** ** Device memory *)

(** [m[i]]; a read outside the array (undefined in the source, and never
    done by the drivers) gives 0. *)
Definition rd (m : list Z) (i : nat) : Z := default 0%Z (m !! i).

(** [cudaMalloc]: the new array holds whatever words the device memory
    held there; [junk] is that content. *)
Definition cudaMalloc (junk : nat -> Z) (len : nat) : list Z :=
  map (fun i => wrap32 (junk i)) (seq 0 len).

(** [cudaMemcpy(dst, src, cnt * sizeof(int))]. *)
Definition cudaMemcpy (dst src : list Z) (cnt : nat) : list Z :=
  take cnt src ++ drop cnt dst.

(** [cudaMemset(dst, 0, cnt * sizeof(int))]. *)
Definition cudaMemset0 (dst : list Z) (cnt : nat) : list Z :=
  replicate (min cnt (length dst)) 0%Z ++ drop cnt dst.

(** ** Kernel launches *)

(** The global indices [blockIdx.x * blockDim.x + threadIdx.x] of a launch
    [<<<gridDim, blockDim>>>]. *)
Definition launch (gridDim blockDim : nat) : list nat :=
  seq 0 (gridDim * blockDim).

(** One barrier-delimited phase: every thread runs [body]. *)
Definition par_for {S : Type} (threads : list nat) (body : nat -> S -> S)
    (s : S) : S :=
  fold_left (fun s id => body id s) threads s.

(** Modelled from the spec: [ilog2ceil] of common.h is not among the
    sources; the spec gives [nPad = 2^ceil(log2(n))], so it is the ceiling
    of the binary logarithm. *)
Definition ilog2ceil (n : nat) : nat := Nat.log2_up n.

(** *** kernScanInclusive *)

(** Upsweep, step [d], thread [id]. *)
Definition upsweep_thread (n d id : nat) (idata : list Z) : list Z :=
  if (id <? n) && (id mod 2 ^ (d + 1) =? 0) then
    <[id + 2 ^ (d + 1) - 1 :=
        add32 (rd idata (id + 2 ^ (d + 1) - 1)) (rd idata (id + 2 ^ d - 1))]>
      idata
  else idata.

(** [tid == bdim - 1 || id == n - 1]. *)
Definition last_of_block (bdim n id : nat) : bool :=
  (id mod bdim =? bdim - 1) || (id =? n - 1).

(** The last thread of a block saves the block's sum in its register
    [reduction_sum] and clears the slot. The state is the array and the
    registers of all threads. *)
Definition capture_thread (bdim n id : nat) (s : list Z * list Z)
    : list Z * list Z :=
  let '(idata, reduction_sum) := s in
  if (id <? n) && last_of_block bdim n id then
    (<[id := 0%Z]> idata, <[id := rd idata id]> reduction_sum)
  else s.

(** Downsweep, step [d], thread [id]. *)
Definition downsweep_thread (n d id : nat) (idata : list Z) : list Z :=
  if (id <? n) && (id mod 2 ^ (d + 1) =? 0) then
    let temp := rd idata (id + 2 ^ d - 1) in
    let idata1 :=
      <[id + 2 ^ d - 1 := rd idata (id + 2 ^ (d + 1) - 1)]> idata in
    <[id + 2 ^ (d + 1) - 1 :=
        add32 (rd idata1 (id + 2 ^ (d + 1) - 1)) temp]> idata1
  else idata.

(** The final write of thread [id] to [odata]. *)
Definition emit_thread (bdim n : nat) (idata reduction_sum : list Z)
    (id : nat) (odata : list Z) : list Z :=
  if id <? n then
    if last_of_block bdim n id then <[id := rd reduction_sum id]> odata
    else <[id := rd idata (id + 1)]> odata
  else odata.

Definition upsweep (threads : list nat) (n log2n : nat) (idata : list Z)
    : list Z :=
  fold_left (fun m d => par_for threads (upsweep_thread n d) m)
            (seq 0 log2n) idata.

Definition downsweep (threads : list nat) (n log2n : nat) (idata : list Z)
    : list Z :=
  fold_left (fun m d => par_for threads (downsweep_thread n d) m)
            (rev (seq 0 log2n)) idata.

(** [kernScanInclusive<<<gridDim, blockDim>>>(n, odata, idata)]: the
    result is the pair of [odata] (inclusive scan of every block) and
    [idata] (exclusive scan of every block) after the launch. *)
Definition kernScanInclusive (gridDim bdim n : nat) (odata idata : list Z)
    : list Z * list Z :=
  let threads := launch gridDim bdim in
  let log2n := ilog2ceil (if n <? bdim then n else bdim) in
  let idata1 := upsweep threads n log2n idata in
  let '(idata2, reduction_sum) :=
    par_for threads (capture_thread bdim n)
            (idata1, replicate (length threads) 0%Z) in
  let idata3 := downsweep threads n log2n idata2 in
  let odata1 :=
    par_for threads (emit_thread bdim n idata3 reduction_sum) odata in
  (odata1, idata3).

(** *** Kernels of common.cu *)

(** Modelled from the spec: [kernMapToBoolean] of common.cu is not among
    the sources; the spec has [mask[i] = 1] if [work[i] != 0] else [0]. *)
Definition kernMapToBoolean (gridDim bdim n : nat) (bools idata : list Z)
    : list Z :=
  par_for (launch gridDim bdim)
    (fun id bools =>
       if id <? n then
         <[id := if (rd idata id =? 0)%Z then 0%Z else 1%Z]> bools
       else bools)
    bools.

(** Modelled from the spec: [kernScatter] of common.cu is not among the
    sources; the spec has: if [mask[i] == 1], write [work[i]] into
    [output[destIndex[i]]]. A negative index is outside the array. *)
Definition scatter_thread (n : nat) (idata bools indices : list Z)
    (id : nat) (odata : list Z) : list Z :=
  if (id <? n) && (rd bools id =? 1)%Z && (0 <=? rd indices id)%Z then
    <[Z.to_nat (rd indices id) := rd idata id]> odata
  else odata.

Definition kernScatter (gridDim bdim n : nat)
    (odata idata bools indices : list Z) : list Z :=
  par_for (launch gridDim bdim) (scatter_thread n idata bools indices) odata.

(** Modelled from the spec: [kernExtractLastElementPerBlock] of common.cu
    is not among the sources; the spec has: extract the last element of
    every group into the next level's input buffer, one element per
    group. *)
Definition kernExtractLastElementPerBlock (gridDim bdim n : nat)
    (odata idata : list Z) : list Z :=
  par_for (launch gridDim bdim)
    (fun id odata =>
       if (id <? n) && last_of_block bdim n id then
         <[id / bdim := rd idata id]> odata
       else odata)
    odata.

(** Modelled from the spec: [kernShiftToExclusive] of common.cu is not
    among the sources; the spec has: a one-position right-shift with 0
    inserted at position 0. *)
Definition kernShiftToExclusive (gridDim bdim n : nat)
    (odata idata : list Z) : list Z :=
  par_for (launch gridDim bdim)
    (fun id odata =>
       if id <? n then
         <[id := if id =? 0 then 0%Z else rd idata (id - 1)]> odata
       else odata)
    odata.

(** Modelled from the spec: [kernAddOffsetPerBlock] of common.cu is not
    among the sources; the spec has: broadcast each per-group offset onto
    every element of the corresponding group, by addition. *)
Definition kernAddOffsetPerBlock (gridDim bdim n : nat)
    (odata block_offset idata : list Z) : list Z :=
  par_for (launch gridDim bdim)
    (fun id odata =>
       if id <? n then
         <[id := add32 (rd idata id) (rd block_offset (id / bdim))]> odata
       else odata)
    odata.

(** ** The drivers *)

(** The per-level device arrays and sizes of [scan] and [compact]
    ([dev_iIndices] and [dev_oIndices] in [compact]). *)
Record levels : Type := Levels {
  dev_idata : list (list Z);
  dev_odata : list (list Z);
  dev_buffer : list (list Z);
  array_sizes : list nat;
  grid_sizes : list nat
}.

Section Driver.

(** [Common::block_size_efficient], a constant of common.h. *)
Variable block_size : nat.

(** The uninitialised content of the k-th array given by [cudaMalloc]. *)
Variable junk : nat -> nat -> Z.

(** [(len + block_size - 1) / block_size]. *)
Definition blocks_of (len : nat) : nat := (len + block_size - 1) / block_size.

(** [while ((len + block_size - 1) / block_size > 1) { ++num_scans; ... }];
    [fuel] bounds the number of iterations ([count_scans_fuel] below: the
    loop ends before the fuel does). *)
Fixpoint count_scans (fuel len num_scans : nat) : nat :=
  match fuel with
  | O => num_scans
  | S fuel =>
      if 1 <? blocks_of len
      then count_scans fuel (blocks_of len) (S num_scans)
      else num_scans
  end.

Definition num_scans_of (n_pad : nat) : nat := count_scans n_pad n_pad 1.

(** The allocation loop, from level [i] on; [first] numbers the
    allocations made before it. *)
Fixpoint alloc_levels (first todo i len : nat) : levels :=
  match todo with
  | O => Levels [] [] [] [] []
  | S todo =>
      let rest := alloc_levels first todo (S i) (blocks_of len) in
      Levels (cudaMalloc (junk (first + 3 * i)) len :: dev_idata rest)
             (cudaMalloc (junk (first + 3 * i + 1)) len :: dev_odata rest)
             (cudaMalloc (junk (first + 3 * i + 2)) len :: dev_buffer rest)
             (len :: array_sizes rest)
             (blocks_of len :: grid_sizes rest)
  end.

(** Body of the first kernel loop (upward pass), level [i]. *)
Definition up_level (num_scans i : nat) (s : levels) : levels :=
  let '(buffer_i, idata_i) :=
    kernScanInclusive (grid_sizes s !!! i) block_size (array_sizes s !!! i)
                      (dev_buffer s !!! i) (dev_idata s !!! i) in
  let idata_i := cudaMemcpy idata_i buffer_i (array_sizes s !!! i) in
  let idatas := <[i := idata_i]> (dev_idata s) in
  let idatas :=
    if i <? num_scans - 1 then
      <[i + 1 :=
          kernExtractLastElementPerBlock
            (grid_sizes s !!! i) block_size (array_sizes s !!! i)
            (idatas !!! (i + 1)) idata_i]> idatas
    else idatas in
  Levels idatas (dev_odata s) (<[i := buffer_i]> (dev_buffer s))
         (array_sizes s) (grid_sizes s).

(** Body of the second kernel loop (downward pass), level [i]. *)
Definition down_level (i : nat) (s : levels) : levels :=
  let odata_i :=
    kernShiftToExclusive (grid_sizes s !!! i) block_size (array_sizes s !!! i)
                         (dev_odata s !!! i) (dev_buffer s !!! i) in
  let buffers :=
    if 1 <=? i then
      <[i - 1 :=
          kernAddOffsetPerBlock
            (grid_sizes s !!! (i - 1)) block_size (array_sizes s !!! (i - 1))
            (dev_buffer s !!! (i - 1)) odata_i (dev_idata s !!! (i - 1))]>
        (dev_buffer s)
    else dev_buffer s in
  Levels (dev_idata s) (<[i := odata_i]> (dev_odata s)) buffers
         (array_sizes s) (grid_sizes s).

(** The first [k] iterations of the upward loop. *)
Definition upward (num_scans k : nat) (s : levels) : levels :=
  fold_left (fun s i => up_level num_scans i s) (seq 0 k) s.

(** The downward loop, [i = num_scans - 1 .. 0]. *)
Definition downward (num_scans : nat) (s : levels) : levels :=
  fold_left (fun s i => down_level i s) (rev (seq 0 num_scans)) s.

(** [const int n_pad = 1 << ilog2ceil(n)]: the shift is done on [int]; it
    is exact up to [n = 2^30] and overflows beyond. *)
Definition pad_of (n : nat) : nat :=
  Z.to_nat (wrap32 (Z.shiftl 1 (Z.of_nat (ilog2ceil n)))).

(** [scan], up to the first kernel launch: allocation of the levels and
    copy of the [n] input elements into [dev_idata[0]]. *)
Definition scan_init (n : nat) (idata : list Z) : levels :=
  let n_pad := pad_of n in
  let s := alloc_levels 0 (num_scans_of n_pad) 0 n_pad in
  Levels (<[0 := cudaMemcpy (dev_idata s !!! 0) idata n]> (dev_idata s))
         (dev_odata s) (dev_buffer s) (array_sizes s) (grid_sizes s).

(** [scan], the state after the two kernel loops. *)
Definition scan_levels (n : nat) (idata : list Z) : levels :=
  let num_scans := num_scans_of (pad_of n) in
  downward num_scans (upward num_scans num_scans (scan_init n idata)).

(** [scan(n, odata, idata)]: the [n] elements copied to [odata]; nothing
    is written when [n <= 0]. *)
Definition scan (n : Z) (idata : list Z) : list Z :=
  if (n <=? 0)%Z then []
  else take (Z.to_nat n) (dev_odata (scan_levels (Z.to_nat n) idata) !!! 0).

(** The intermediate arrays and the result of [compact] for [n > 0]. *)
Record compaction : Type := Compaction {
  c_idata : list Z;      (* dev_idata, zero-padded input *)
  c_bools : list Z;      (* dev_bools *)
  c_indices : list Z;    (* dev_oIndices[0] *)
  c_level0 : list Z;     (* dev_iIndices[0] before the first launch *)
  c_odata : list Z;      (* dev_odata after the scatter *)
  c_len : Z              (* compact_len *)
}.

Definition compact_run (n : nat) (idata : list Z) : compaction :=
  let n_pad := pad_of n in
  let num_scans := num_scans_of n_pad in
  let dev_idata0 := cudaMalloc (junk 0) n_pad in
  let dev_odata0 := cudaMalloc (junk 1) n_pad in
  let dev_bools0 := cudaMalloc (junk 2) n_pad in
  let dev_idata1 := cudaMemset0 dev_idata0 n_pad in
  let dev_idata2 := cudaMemcpy dev_idata1 idata n in
  let s := alloc_levels 3 num_scans 0 n_pad in
  let dev_bools1 :=
    kernMapToBoolean (grid_sizes s !!! 0) block_size n_pad
                     dev_bools0 dev_idata2 in
  let level0 := cudaMemcpy (dev_idata s !!! 0) dev_bools1 n_pad in
  let s1 := Levels (<[0 := level0]> (dev_idata s))
                   (dev_odata s) (dev_buffer s)
                   (array_sizes s) (grid_sizes s) in
  let s2 := downward num_scans (upward num_scans num_scans s1) in
  let dev_odata1 :=
    kernScatter (grid_sizes s !!! 0) block_size n_pad
                dev_odata0 dev_idata2 dev_bools1 (dev_odata s2 !!! 0) in
  let indices := take n (dev_odata s2 !!! 0) in
  let bools := take n dev_bools1 in
  Compaction dev_idata2 dev_bools1 (dev_odata s2 !!! 0) level0 dev_odata1
             (add32 (rd indices (n - 1)) (rd bools (n - 1))).

(** [compact(n, odata, idata)]: the [n] elements copied to [odata] and the
    returned count; [n <= 0] returns [n] at once. *)
Definition compact (n : Z) (idata : list Z) : list Z * Z :=
  if (n <=? 0)%Z then ([], n)
  else
    let c := compact_run (Z.to_nat n) idata in
    (take (Z.to_nat n) (c_odata c), c_len c).

End Driver.


(** ** thrust.cu *)

(** [thrust::exclusive_scan(first, last, result)] on [int], starting from
    [acc]: every result is [acc] plus the elements before it. The Thrust
    library is not part of the repository; this is the meaning its
    documentation gives, as a left-to-right accumulation. *)
Fixpoint exclusive_scan_from (acc : Z) (l : list Z) : list Z :=
  match l with
  | [] => []
  | a :: l => acc :: exclusive_scan_from (add32 acc a) l
  end.

Module Thrust.

(** [Thrust::scan(n, odata, idata)]: the elements copied back to [odata].
    [dv_in] is built from [idata[0..n)] and [dv_out] from [odata[0..n)];
    the scan writes over [dv_out]. A negative [n] is not a range; the
    model is for [n >= 0]. *)
Definition scan (n : Z) (odata idata : list Z) : list Z :=
  let dv_in := take (Z.to_nat n) idata in
  let dv_out := take (Z.to_nat n) odata in
  cudaMemcpy dv_out (exclusive_scan_from 0 dv_in) (length dv_in).

End Thrust.

(** * Reference definitions *)

Fixpoint sumZ (l : list Z) : Z :=
  match l with
  | [] => 0%Z
  | x :: l => (x + sumZ l)%Z
  end.

(** [x[lo] + ... + x[lo + len - 1]], as a mathematical integer. *)
Definition psum (x : list Z) (lo len : nat) : Z := sumZ (take len (drop lo x)).

(** Position [j] is the last slot of an aligned chunk of [2^t] slots. *)
Definition node (t j : nat) : Prop := j mod 2 ^ t = 2 ^ t - 1.

#[local] Instance node_dec t j : Decision (node t j).
Proof. unfold node. apply _. Defined.

(** The first slot of the chunk of [2^(d+1)] slots around slot [j]; the
    thread with that index is the one that works on the chunk at step
    [d]. *)
Definition chunk (d j : nat) : nat := j - j mod 2 ^ S d.

(** Inclusive and exclusive prefix sums on [int]. *)
Definition inclusive_scan (x : list Z) : list Z :=
  map (fun j => wrap32 (psum x 0 (S j))) (seq 0 (length x)).

Definition exclusive_scan (x : list Z) : list Z :=
  map (fun j => wrap32 (psum x 0 j)) (seq 0 (length x)).

(** The same inside every group of [B] consecutive slots. *)
Definition block_inclusive (B : nat) (x : list Z) : list Z :=
  map (fun j => wrap32 (psum x (j - j mod B) (j mod B + 1)))
      (seq 0 (length x)).

Definition block_exclusive (B : nat) (x : list Z) : list Z :=
  map (fun j => wrap32 (psum x (j - j mod B) (j mod B))) (seq 0 (length x)).

(** The sum of every group of [B] slots. *)
Definition block_totals (B : nat) (x : list Z) : list Z :=
  map (fun k => wrap32 (psum x (k * B) B)) (seq 0 (length x / B)).

(** The number of nonzero elements. *)
Definition count_nonzero (x : list Z) : nat :=
  length (filter (fun v => v <> 0%Z) x).

(** What the slots hold after [D] upsweep steps over the input [x]: the
    top slot of every chunk that is complete at step [D] holds the chunk's
    sum. *)
Definition up_inv (x : list Z) (D : nat) (m : list Z) : Prop :=
  length m = length x /\
  forall j t, j < length x -> t <= D -> node t j ->
    (t = D \/ ~ node (S t) j) ->
    rd m j = wrap32 (psum x (j + 1 - 2 ^ t) (2 ^ t)).

(** What the slots hold when the downsweep steps [L - 1 .. D] are done, in
    groups of [2^L] slots: the top slot of every chunk of [2^D] slots
    holds the sum of the group's elements before the chunk; the other
    slots still hold their upsweep value. *)
Definition down_inv (x : list Z) (L D : nat) (m : list Z) : Prop :=
  length m = length x /\
  (forall q r, r < 2 ^ L -> q * 2 ^ L + r < length x -> node D r ->
     rd m (q * 2 ^ L + r) = wrap32 (psum x (q * 2 ^ L) (r + 1 - 2 ^ D))) /\
  (forall j t, j < length x -> t < D -> node t j -> ~ node (S t) j ->
     rd m j = wrap32 (psum x (j + 1 - 2 ^ t) (2 ^ t))).

(** ** The levels of the drivers, for a block size [2^b] and a padded
    length [2^p] *)

(** The input of level [i]: the group totals of the level below. *)
Fixpoint level_input (B i : nat) (in0 : list Z) : list Z :=
  match i with
  | O => in0
  | S i => block_totals B (level_input B i in0)
  end.

Definition level_size (b p i : nat) : nat := 2 ^ (p - i * b).

(** The group size at level [i] (the top level may be a partial block). *)
Definition level_block (b p i : nat) : nat := 2 ^ (min (p - i * b) b).

(** The shape of the per-level arrays. *)
Definition wf_levels (b p K : nat) (s : levels) : Prop :=
  length (dev_idata s) = K /\ length (dev_odata s) = K /\
  length (dev_buffer s) = K /\
  forall i, i < K ->
    array_sizes s !!! i = level_size b p i /\
    grid_sizes s !!! i = level_size b p (S i) /\
    length (dev_idata s !!! i) = level_size b p i /\
    length (dev_odata s !!! i) = level_size b p i /\
    length (dev_buffer s !!! i) = level_size b p i.

(** The arrays after [k] iterations of the upward loop. *)
Definition up_done (b p K : nat) (in0 : list Z) (k : nat) (s : levels)
    : Prop :=
  wf_levels b p K s /\
  (forall i, i < k ->
     dev_buffer s !!! i
     = block_inclusive (level_block b p i) (level_input (2 ^ b) i in0) /\
     dev_idata s !!! i
     = block_inclusive (level_block b p i) (level_input (2 ^ b) i in0)) /\
  (k < K -> dev_idata s !!! k = level_input (2 ^ b) k in0).

(** The arrays when the downward loop has done the levels [K - 1 .. k]. *)
Definition down_done (b p K : nat) (in0 : list Z) (k : nat) (s : levels)
    : Prop :=
  wf_levels b p K s /\
  (forall i, k <= i < K ->
     dev_odata s !!! i = exclusive_scan (level_input (2 ^ b) i in0)) /\
  (1 <= k ->
     dev_buffer s !!! (k - 1)
     = inclusive_scan (level_input (2 ^ b) (k - 1) in0)) /\
  (forall i, i < K ->
     dev_idata s !!! i
     = block_inclusive (level_block b p i) (level_input (2 ^ b) i in0)).

(** ** Compaction *)

(** The input of [compact], zero-extended to the padded length. *)
Definition padded (n_pad : nat) (x : list Z) : list Z :=
  x ++ replicate (n_pad - length x) 0%Z.

(** The keep flags of an array of [m] slots. *)
Definition mask_of (m : nat) (x : list Z) : list Z :=
  map (fun j => if (rd x j =? 0)%Z then 0%Z else 1%Z) (seq 0 m).

(** The number of kept elements before position [k]. *)
Definition kept_before (x : list Z) (k : nat) : nat :=
  count_nonzero (take k x).

(** ** Footprints *)

(** The two slots of [idata] that thread [id] touches at step [d] of the
    upsweep and of the downsweep: [id + (1 << d) - 1] and
    [id + (1 << (d + 1)) - 1]. *)
Definition sweep_slots (d id : nat) : list nat :=
  [id + 2 ^ d - 1; id + 2 ^ (d + 1) - 1].

(** * Tests on concrete inputs *)

Example kernScanInclusive_one_block :
  kernScanInclusive 1 8 8 (replicate 8 9%Z) [1; 2; 3; 4; 5; 6; 7; 8]%Z
  = ([1; 3; 6; 10; 15; 21; 28; 36]%Z, [0; 1; 3; 6; 10; 15; 21; 28]%Z).
Proof. vm_compute. reflexivity. Qed.

Example kernScanInclusive_two_blocks :
  kernScanInclusive 2 4 8 (replicate 8 9%Z) [1; 2; 3; 4; 5; 6; 7; 8]%Z
  = ([1; 3; 6; 10; 5; 11; 18; 26]%Z, [0; 1; 3; 6; 0; 5; 11; 18]%Z).
Proof. vm_compute. reflexivity. Qed.

Example kernScanInclusive_short_block :
  kernScanInclusive 1 8 2 (replicate 2 9%Z) [5; 6]%Z
  = ([5; 11]%Z, [0; 5]%Z).
Proof. vm_compute. reflexivity. Qed.

Example scan_8 :
  scan 4 (fun _ _ => 77%Z) 8 [1; 2; 3; 4; 5; 6; 7; 8]%Z
  = [0; 1; 3; 6; 10; 15; 21; 28]%Z.
Proof. vm_compute. reflexivity. Qed.

Example scan_8_three_levels :
  scan 2 (fun _ _ => 77%Z) 8 [1; 2; 3; 4; 5; 6; 7; 8]%Z
  = [0; 1; 3; 6; 10; 15; 21; 28]%Z.
Proof. vm_compute. reflexivity. Qed.

Example scan_5_junk_pad :
  scan 2 (fun _ _ => 77%Z) 5 [1; 2; 3; 4; 5]%Z = [0; 1; 3; 6; 10]%Z.
Proof. vm_compute. reflexivity. Qed.

Example scan_1 : scan 4 (fun _ _ => 77%Z) 1 [5]%Z = [0]%Z.
Proof. vm_compute. reflexivity. Qed.

Example scan_0 : scan 4 (fun _ _ => 77%Z) 0 [] = [].
Proof. reflexivity. Qed.

Example compact_8 :
  compact 4 (fun _ _ => 77%Z) 8 [1; 0; 0; 3; 0; 4; 0; 0]%Z
  = ([1; 3; 4; 77; 77; 77; 77; 77]%Z, 3%Z).
Proof. vm_compute. reflexivity. Qed.

Example compact_1_zero : compact 4 (fun _ _ => 77%Z) 1 [0]%Z = ([77]%Z, 0%Z).
Proof. vm_compute. reflexivity. Qed.

Example compact_1_seven : compact 4 (fun _ _ => 77%Z) 1 [7]%Z = ([7]%Z, 1%Z).
Proof. vm_compute. reflexivity. Qed.

(** The block size has to be a power of two: with 3 threads in a block
    the chunks of the upsweep cross the blocks. *)
Example scan_8_block_size_3 :
  scan 3 (fun _ _ => 77%Z) 8 [1; 2; 3; 4; 5; 6; 7; 8]%Z
  = [0; 11; 13; 3; 3; 8; 14; 7]%Z.
Proof. vm_compute. reflexivity. Qed.

(** [1 << 31] is not an [int]: for [n] above [2^30] there is no padded
    length. *)
Example shift_31_overflows : wrap32 (Z.shiftl 1 31) = int_min.
Proof. reflexivity. Qed.

(** * Arithmetic on [int] *)

Lemma wrap32_int32 z : int32 (wrap32 z).
Proof.
  unfold int32, wrap32, int_min, int_max.
  pose proof (Z.mod_pos_bound (z + 2 ^ 31) (2 ^ 32)) as H. lia.
Qed.

Lemma wrap32_id z : int32 z -> wrap32 z = z.
Proof.
  unfold int32, wrap32, int_min, int_max. intros H.
  rewrite Z.mod_small; lia.
Qed.

Lemma wrap32_idemp z : wrap32 (wrap32 z) = wrap32 z.
Proof. apply wrap32_id, wrap32_int32. Qed.

Lemma wrap32_0 : wrap32 0 = 0%Z.
Proof. reflexivity. Qed.

Lemma wrap32_add_l a b : wrap32 (wrap32 a + b) = wrap32 (a + b).
Proof.
  unfold wrap32. f_equal.
  replace ((a + 2 ^ 31) mod 2 ^ 32 - 2 ^ 31 + b + 2 ^ 31)%Z
    with ((a + 2 ^ 31) mod 2 ^ 32 + b)%Z by lia.
  rewrite Zplus_mod_idemp_l. f_equal. lia.
Qed.

Lemma wrap32_add_r a b : wrap32 (a + wrap32 b) = wrap32 (a + b).
Proof. rewrite Z.add_comm, wrap32_add_l. f_equal. lia. Qed.

Lemma add32_wrap a b : add32 (wrap32 a) (wrap32 b) = wrap32 (a + b).
Proof. unfold add32. by rewrite wrap32_add_l, wrap32_add_r. Qed.

Lemma add32_comm a b : add32 a b = add32 b a.
Proof. unfold add32. f_equal. lia. Qed.

(** * Sums *)

Lemma sumZ_app l k : sumZ (l ++ k) = (sumZ l + sumZ k)%Z.
Proof. induction l as [|a l IH]; simpl; lia. Qed.

Lemma psum_0 x lo : psum x lo 0 = 0%Z.
Proof. reflexivity. Qed.

Lemma psum_add x lo a b :
  psum x lo (a + b) = (psum x lo a + psum x (lo + a) b)%Z.
Proof.
  unfold psum. rewrite <- (take_take_drop _ a b), sumZ_app.
  by rewrite drop_drop.
Qed.

Lemma psum_1 x lo : psum x lo 1 = rd x lo.
Proof.
  unfold psum, rd. replace (x !! lo) with (drop lo x !! 0).
  - destruct (drop lo x) as [|a l]; simpl; lia.
  - rewrite lookup_drop. f_equal. lia.
Qed.

Lemma psum_S x lo a : psum x lo (S a) = (psum x lo a + rd x (lo + a))%Z.
Proof. by rewrite <- Nat.add_1_r, psum_add, psum_1. Qed.

Lemma psum_ext x y lo len :
  (forall j, lo <= j < lo + len -> rd x j = rd y j) ->
  psum x lo len = psum y lo len.
Proof.
  induction len as [|len IH]; intros H; [done|].
  rewrite !psum_S, IH, H; [done|lia|]. intros j Hj. apply H. lia.
Qed.

(** * Reading and writing arrays *)

Lemma rd_insert (m : list Z) i j v :
  rd (<[i := v]> m) j = if decide (i = j /\ i < length m) then v else rd m j.
Proof. unfold rd. rewrite list_lookup_insert. by case_decide. Qed.

Lemma rd_ge (m : list Z) j : length m <= j -> rd m j = 0%Z.
Proof. intros H. unfold rd. by rewrite lookup_ge_None_2. Qed.

Lemma rd_map_seq (f : nat -> Z) n j : j < n -> rd (map f (seq 0 n)) j = f j.
Proof.
  intros H. unfold rd.
  change (map f (seq 0 n)) with (f <$> seq 0 n).
  rewrite list_lookup_fmap, lookup_seq_lt; done.
Qed.

Lemma rd_app_l (a b : list Z) j : j < length a -> rd (a ++ b) j = rd a j.
Proof. intros H. unfold rd. by rewrite lookup_app_l. Qed.

Lemma rd_app_r (a b : list Z) j :
  length a <= j -> rd (a ++ b) j = rd b (j - length a).
Proof. intros H. unfold rd. by rewrite lookup_app_r. Qed.

Lemma rd_take (m : list Z) n j : j < n -> rd (take n m) j = rd m j.
Proof. intros H. unfold rd. by rewrite lookup_take_lt. Qed.

Lemma list_eq_rd (a b : list Z) :
  length a = length b -> (forall j, j < length a -> rd a j = rd b j) -> a = b.
Proof.
  intros Hl H. apply list_eq. intros j.
  destruct (decide (j < length a)) as [Hj|Hj].
  - specialize (H j Hj). unfold rd in H.
    destruct (lookup_lt_is_Some_2 a j Hj) as [u Hu].
    destruct (lookup_lt_is_Some_2 b j ltac:(lia)) as [v Hv].
    rewrite Hu, Hv in *. simpl in H. by subst.
  - rewrite !lookup_ge_None_2; [done|lia|lia].
Qed.

Lemma length_map_seq (f : nat -> Z) n : length (map f (seq 0 n)) = n.
Proof. by rewrite length_map, length_seq. Qed.

(** * Phases: threads with disjoint footprints *)

Lemma par_for_snoc {S : Type} (body : nat -> S -> S) T s :
  par_for (seq 0 (Datatypes.S T)) body s = body T (par_for (seq 0 T) body s).
Proof. unfold par_for. by rewrite seq_S, fold_left_app. Qed.

Section Footprint.

(** [owner j] is the only thread that reads or writes slot [j]. *)
Variable body : nat -> list Z -> list Z.
Variable owner : nat -> nat.

Hypothesis body_length : forall id m, length (body id m) = length m.
Hypothesis body_frame :
  forall id m j, owner j <> id -> rd (body id m) j = rd m j.
Hypothesis body_local :
  forall id m m', length m = length m' ->
    (forall j, owner j = id -> rd m j = rd m' j) ->
    forall j, owner j = id -> rd (body id m) j = rd (body id m') j.

Lemma par_for_length T m : length (par_for (seq 0 T) body m) = length m.
Proof.
  induction T as [|T IH]; [done|]. by rewrite par_for_snoc, body_length.
Qed.

(** Whatever the order of the threads inside the phase, a slot ends with
    the value its owner computes from the array as the phase began. *)
Lemma par_for_owner T m j :
  rd (par_for (seq 0 T) body m) j
  = if decide (owner j < T) then rd (body (owner j) m) j else rd m j.
Proof.
  revert j. induction T as [|T IH]; intros j.
  - by case_decide; [lia|].
  - rewrite par_for_snoc.
    destruct (decide (owner j = T)) as [Ho|Ho].
    + rewrite decide_True by lia. rewrite <- Ho.
      apply body_local; [apply par_for_length| |done].
      intros j' Hj'. rewrite Ho, IH. rewrite decide_False; [done|lia].
    + rewrite body_frame by done. rewrite IH.
      repeat case_decide; try done; lia.
Qed.

End Footprint.

(** * Aligned chunks *)

Lemma pow2_pos t : 0 < 2 ^ t.
Proof. induction t; simpl; lia. Qed.

Lemma pow2_S t : 2 ^ (t + 1) = 2 * 2 ^ t.
Proof. by rewrite Nat.add_1_r. Qed.

Lemma mod_chunk a r q : a mod q = 0 -> r < q -> (a + r) mod q = r.
Proof.
  intros Ha Hr. pose proof (Nat.div_mod_eq a q) as E. rewrite Ha in E.
  replace (a + r) with (r + a / q * q) by lia.
  rewrite Nat.Div0.mod_add. by apply Nat.mod_small.
Qed.

Lemma mod_start j q : (j - j mod q) mod q = 0.
Proof.
  pose proof (Nat.div_mod_eq j q) as E.
  replace (j - j mod q) with (0 + j / q * q) by lia.
  by rewrite Nat.Div0.mod_add, Nat.Div0.mod_0_l.
Qed.

Lemma mod_le j q : j mod q <= j.
Proof. apply Nat.Div0.mod_le. Qed.

Lemma mod_double j p :
  0 < p -> j mod (2 * p) = j mod p \/ j mod (2 * p) = j mod p + p.
Proof.
  intros Hp. rewrite (Nat.mul_comm 2 p), Nat.Div0.mod_mul_r.
  pose proof (Nat.mod_upper_bound (j / p) 2).
  destruct ((j / p) mod 2) as [|[|k]]; lia.
Qed.

Lemma node_0 j : node 0 j.
Proof. unfold node. change (2 ^ 0) with 1. by rewrite Nat.mod_1_r. Qed.

Lemma node_S_node t j : node (S t) j -> node t j.
Proof.
  unfold node. rewrite Nat.pow_succ_r'. pose proof (pow2_pos t) as Hp.
  pose proof (Nat.mod_upper_bound j (2 ^ t)).
  destruct (mod_double j (2 ^ t) Hp); lia.
Qed.

Lemma node_le t j : node t j -> 2 ^ t <= j + 1.
Proof. unfold node. pose proof (mod_le j (2 ^ t)). lia. Qed.

Lemma node_S_lower t j :
  node (S t) j -> node t (j - 2 ^ t) /\ ~ node (S t) (j - 2 ^ t).
Proof.
  intros Hn. pose proof (pow2_pos t) as Hp. pose proof (node_le _ _ Hn) as Hl.
  unfold node in *. rewrite !Nat.pow_succ_r' in *.
  assert ((j - 2 ^ t) mod (2 * 2 ^ t) = 2 ^ t - 1) as E.
  { replace (j - 2 ^ t) with ((j - j mod (2 * 2 ^ t)) + (2 ^ t - 1))
      by (pose proof (mod_le j (2 * 2 ^ t)); lia).
    apply mod_chunk; [apply mod_start|lia]. }
  pose proof (Nat.mod_upper_bound (j - 2 ^ t) (2 ^ t)).
  destruct (mod_double (j - 2 ^ t) (2 ^ t) Hp); lia.
Qed.

Lemma node_upper t j : node t j -> ~ node (S t) j -> node (S t) (j + 2 ^ t).
Proof.
  intros Hn Hs. pose proof (pow2_pos t) as Hp.
  unfold node in *. rewrite !Nat.pow_succ_r' in *.
  assert (j mod (2 * 2 ^ t) = 2 ^ t - 1) as E
    by (destruct (mod_double j (2 ^ t) Hp); lia).
  replace (j + 2 ^ t) with ((j - j mod (2 * 2 ^ t)) + (2 * 2 ^ t - 1))
    by (pose proof (mod_le j (2 * 2 ^ t)); lia).
  apply mod_chunk; [apply mod_start|lia].
Qed.

Lemma node_mid t j : node t j -> ~ node (S t) j -> j mod 2 ^ S t = 2 ^ t - 1.
Proof.
  intros Hn Hs. pose proof (pow2_pos t) as Hp.
  unfold node in *. rewrite !Nat.pow_succ_r' in *.
  destruct (mod_double j (2 ^ t) Hp); lia.
Qed.

(** * The steps of kernScanInclusive *)

Section Steps.

Variables (n d T : nat).
Hypothesis threads_cover : n <= T.

Lemma chunk_owner id r :
  id mod 2 ^ S d = 0 -> r < 2 ^ S d -> chunk d (id + r) = id.
Proof.
  intros Hid Hr. unfold chunk. rewrite mod_chunk by done. lia.
Qed.

Lemma upsweep_length id m : length (upsweep_thread n d id m) = length m.
Proof.
  unfold upsweep_thread. case_match; [|done]. by rewrite length_insert.
Qed.

Lemma upsweep_frame id m j :
  chunk d j <> id -> rd (upsweep_thread n d id m) j = rd m j.
Proof.
  intros Hj. unfold upsweep_thread. rewrite pow2_S.
  pose proof (pow2_pos d) as Hp.
  case_match eqn:E; [|done].
  apply andb_true_iff in E as [_ E%Nat.eqb_eq].
  rewrite rd_insert, decide_False; [done|]. intros [<- _]. apply Hj.
  replace (id + 2 * 2 ^ d - 1) with (id + (2 * 2 ^ d - 1)) by lia.
  apply chunk_owner; rewrite Nat.pow_succ_r'; [done|lia].
Qed.

Lemma upsweep_local id m m' :
  length m = length m' ->
  (forall j, chunk d j = id -> rd m j = rd m' j) ->
  forall j, chunk d j = id ->
    rd (upsweep_thread n d id m) j = rd (upsweep_thread n d id m') j.
Proof.
  intros Hl H j Hj. unfold upsweep_thread. rewrite pow2_S.
  pose proof (pow2_pos d) as Hp.
  case_match eqn:E; [|by apply H].
  apply andb_true_iff in E as [_ E%Nat.eqb_eq].
  rewrite !rd_insert, Hl.
  case_decide; [|by apply H].
  rewrite !H; [done| |].
  - replace (id + 2 ^ d - 1) with (id + (2 ^ d - 1)) by lia.
    apply chunk_owner; rewrite Nat.pow_succ_r'; [done|lia].
  - replace (id + 2 * 2 ^ d - 1) with (id + (2 * 2 ^ d - 1)) by lia.
    apply chunk_owner; rewrite Nat.pow_succ_r'; [done|lia].
Qed.

(** One upsweep step, slot by slot. *)
Lemma upsweep_step m j :
  j < n -> j < length m ->
  rd (par_for (seq 0 T) (upsweep_thread n d) m) j
  = if decide (node (S d) j) then add32 (rd m j) (rd m (j - 2 ^ d))
    else rd m j.
Proof.
  intros Hj Hjm.
  rewrite (par_for_owner _ (chunk d) upsweep_length upsweep_frame upsweep_local).
  pose proof (mod_le j (2 ^ S d)) as Hle.
  pose proof (pow2_pos d) as Hp.
  pose proof (Nat.mod_upper_bound j (2 ^ S d)) as Hup.
  rewrite decide_True by (unfold chunk; lia).
  unfold upsweep_thread. rewrite pow2_S.
  replace (chunk d j <? n) with true
    by (symmetry; apply Nat.ltb_lt; unfold chunk; lia).
  replace (chunk d j mod (2 * 2 ^ d) =? 0) with true
    by (symmetry; apply Nat.eqb_eq; apply (mod_start j (2 ^ S d))).
  simpl andb. cbv iota. rewrite rd_insert. unfold node, chunk in *.
  simpl in *. repeat case_decide; try lia; try done.
  f_equal; f_equal; lia.
Qed.

Lemma downsweep_length id m : length (downsweep_thread n d id m) = length m.
Proof.
  unfold downsweep_thread. case_match; [|done]. by rewrite !length_insert.
Qed.

Lemma downsweep_frame id m j :
  chunk d j <> id -> rd (downsweep_thread n d id m) j = rd m j.
Proof.
  intros Hj. unfold downsweep_thread. rewrite pow2_S.
  pose proof (pow2_pos d) as Hp.
  case_match eqn:E; [|done].
  apply andb_true_iff in E as [_ E%Nat.eqb_eq]. cbv zeta.
  rewrite rd_insert, decide_False.
  - rewrite rd_insert, decide_False; [done|]. intros [<- _]. apply Hj.
    replace (id + 2 ^ d - 1) with (id + (2 ^ d - 1)) by lia.
    apply chunk_owner; rewrite Nat.pow_succ_r'; [done|lia].
  - intros [<- _]. apply Hj.
    replace (id + 2 * 2 ^ d - 1) with (id + (2 * 2 ^ d - 1)) by lia.
    apply chunk_owner; rewrite Nat.pow_succ_r'; [done|lia].
Qed.

Lemma downsweep_local id m m' :
  length m = length m' ->
  (forall j, chunk d j = id -> rd m j = rd m' j) ->
  forall j, chunk d j = id ->
    rd (downsweep_thread n d id m) j = rd (downsweep_thread n d id m') j.
Proof.
  intros Hl H j Hj. unfold downsweep_thread. rewrite pow2_S.
  pose proof (pow2_pos d) as Hp.
  case_match eqn:E; [|by apply H].
  apply andb_true_iff in E as [_ E%Nat.eqb_eq]. cbv zeta.
  assert (chunk d (id + 2 ^ d - 1) = id) as Ha.
  { replace (id + 2 ^ d - 1) with (id + (2 ^ d - 1)) by lia.
    apply chunk_owner; rewrite Nat.pow_succ_r'; [done|lia]. }
  assert (chunk d (id + 2 * 2 ^ d - 1) = id) as Hc.
  { replace (id + 2 * 2 ^ d - 1) with (id + (2 * 2 ^ d - 1)) by lia.
    apply chunk_owner; rewrite Nat.pow_succ_r'; [done|lia]. }
  rewrite !rd_insert, !length_insert, Hl, !(H _ Ha), !(H _ Hc), (H _ Hj).
  done.
Qed.

(** One downsweep step, slot by slot. *)
Lemma downsweep_step m j :
  j < n -> j < length m ->
  rd (par_for (seq 0 T) (downsweep_thread n d) m) j
  = if decide (node (S d) j) then add32 (rd m j) (rd m (j - 2 ^ d))
    else if decide (node d j) then rd m (j + 2 ^ d)
    else rd m j.
Proof.
  intros Hj Hjm.
  rewrite (par_for_owner _ (chunk d) downsweep_length downsweep_frame
                         downsweep_local).
  pose proof (mod_le j (2 ^ S d)) as Hle.
  pose proof (pow2_pos d) as Hp.
  pose proof (Nat.mod_upper_bound j (2 ^ S d)) as Hup.
  rewrite decide_True by (unfold chunk; lia).
  unfold downsweep_thread. rewrite pow2_S.
  replace (chunk d j <? n) with true
    by (symmetry; apply Nat.ltb_lt; unfold chunk; lia).
  replace (chunk d j mod (2 * 2 ^ d) =? 0) with true
    by (symmetry; apply Nat.eqb_eq; apply (mod_start j (2 ^ S d))).
  simpl andb. cbv iota zeta. rewrite !rd_insert, !length_insert.
  destruct (decide (node (S d) j)) as [Hn|Hn].
  - unfold node, chunk in *. simpl in *.
    rewrite decide_True by lia. rewrite decide_False by lia.
    f_equal; f_equal; lia.
  - rewrite decide_False by (unfold node, chunk in *; simpl in *; lia).
    destruct (decide (node d j)) as [Hm|Hm].
    + pose proof (node_mid _ _ Hm Hn) as E. unfold chunk. simpl in *.
      rewrite decide_True by lia. f_equal. lia.
    + rewrite decide_False; [done|]. intros [E _]. apply Hm.
      unfold node, chunk in *. rewrite ?Nat.pow_succ_r' in *.
      destruct (mod_double j (2 ^ d) Hp); lia.
Qed.

End Steps.

(** * kernScanInclusive scans every block *)

Lemma rd_int32 x j : Forall int32 x -> int32 (rd x j).
Proof.
  intros H. unfold rd. destruct (x !! j) as [v|] eqn:E; simpl.
  - eapply Forall_lookup_1; eauto.
  - unfold int32, int_min, int_max. lia.
Qed.

Lemma node_mono s t j : node s j -> t <= s -> node t j.
Proof.
  intros Hs Hle. induction Hle as [|s Hle IH]; [done|].
  by apply IH, node_S_node.
Qed.

Lemma node_block L t q r : t <= L -> node t (q * 2 ^ L + r) <-> node t r.
Proof.
  intros Hle. unfold node.
  assert (2 ^ L = 2 ^ (L - t) * 2 ^ t) as E.
  { rewrite <- Nat.pow_add_r. f_equal. lia. }
  replace (q * 2 ^ L + r) with (r + q * 2 ^ (L - t) * 2 ^ t) by lia.
  by rewrite Nat.Div0.mod_add.
Qed.

Lemma chunk_fits L t r :
  t <= L -> r < 2 ^ L -> r - r mod 2 ^ t + 2 ^ t <= 2 ^ L.
Proof.
  intros Hle Hr. pose proof (pow2_pos t) as Hp.
  assert (2 ^ L = 2 ^ t * 2 ^ (L - t)) as E.
  { rewrite <- Nat.pow_add_r. f_equal. lia. }
  pose proof (Nat.div_mod_eq r (2 ^ t)) as Hd.
  assert (r / 2 ^ t < 2 ^ (L - t)) as Hq.
  { apply Nat.Div0.div_lt_upper_bound. lia. }
  rewrite E.
  replace (r - r mod 2 ^ t + 2 ^ t) with (2 ^ t * (r / 2 ^ t + 1)) by lia.
  apply Nat.mul_le_mono_l. lia.
Qed.

(** The capture phase, after the first [k] threads. *)
Lemma capture_spec n bdim k m regs :
  let s := par_for (seq 0 k) (capture_thread bdim n) (m, regs) in
  length s.1 = length m /\ length s.2 = length regs /\
  (forall j, rd s.1 j
     = if decide (j < k /\ j < n /\ last_of_block bdim n j = true)
       then 0%Z else rd m j) /\
  (forall j, j < length regs -> rd s.2 j
     = if decide (j < k /\ j < n /\ last_of_block bdim n j = true)
       then rd m j else rd regs j).
Proof.
  cbv zeta. induction k as [|k IH].
  { simpl. repeat split; intros; rewrite decide_False; try done; lia. }
  rewrite par_for_snoc.
  destruct (par_for (seq 0 k) (capture_thread bdim n) (m, regs))
    as [mk rk] eqn:E. simpl in IH. destruct IH as (Hl1 & Hl2 & H1 & H2).
  unfold capture_thread.
  destruct ((k <? n) && last_of_block bdim n k) eqn:C; simpl.
  - apply andb_true_iff in C as [C1%Nat.ltb_lt C2].
    rewrite !length_insert. repeat split; try done.
    + intros j. rewrite rd_insert, H1.
      destruct (decide (j = k)) as [->|Hne].
      * rewrite (decide_True (P := k < S k /\ _)) by (split_and!; [lia|done..]).
        destruct (decide (k = k /\ k < length mk)) as [|Hk]; [done|].
        rewrite decide_False by lia. apply rd_ge.
        destruct (decide (k < length mk)); [tauto|lia].
      * rewrite (decide_False (P := k = j /\ _)) by (intros [? _]; lia).
        apply decide_ext. split; intros (?&?&?); split_and!; try done; lia.
    + intros j Hj. rewrite rd_insert, H2 by done.
      destruct (decide (j = k)) as [->|Hne].
      * rewrite (decide_True (P := k < S k /\ _)) by (split_and!; [lia|done..]).
        rewrite decide_True by (split; [done|lia]).
        rewrite H1. rewrite decide_False; [done|lia].
      * rewrite (decide_False (P := k = j /\ _)) by (intros [? _]; lia).
        apply decide_ext. split; intros (?&?&?); split_and!; try done; lia.
  - assert (~ (k < n /\ last_of_block bdim n k = true)) as C'.
    { intros [Hk Hb]. apply Nat.ltb_lt in Hk. by rewrite Hk, Hb in C. }
    repeat split; try done.
    + intros j. rewrite H1.
      destruct (decide (j = k)) as [->|Hne].
      * rewrite (decide_False (P := k < k /\ _)) by (intros [? _]; lia).
        rewrite decide_False; [done|]. intros (?&?&?). tauto.
      * apply decide_ext. split; intros (?&?&?); split_and!; try done; lia.
    + intros j Hj. rewrite H2 by done.
      destruct (decide (j = k)) as [->|Hne].
      * rewrite (decide_False (P := k < k /\ _)) by (intros [? _]; lia).
        rewrite decide_False; [done|]. intros (?&?&?). tauto.
      * apply decide_ext. split; intros (?&?&?); split_and!; try done; lia.
Qed.

Section BlockScan.

Variables (x : list Z) (n T : nat).
Hypothesis x_int32 : Forall int32 x.
Hypothesis x_length : length x = n.
Hypothesis threads_cover : n <= T.

Lemma up_inv_0 : up_inv x 0 x.
Proof.
  split; [done|]. intros j t _ Ht _ _. assert (t = 0) as -> by lia.
  change (2 ^ 0) with 1. rewrite psum_1, wrap32_id; [f_equal; lia|].
  by apply rd_int32.
Qed.

Lemma up_inv_step D m :
  up_inv x D m ->
  up_inv x (S D) (par_for (seq 0 T) (upsweep_thread n D) m).
Proof.
  intros [Hl Hm]. split.
  { rewrite par_for_length; [done|]. intros; apply upsweep_length. }
  intros j t Hj Ht Hn Htop.
  rewrite upsweep_step by lia.
  destruct (decide (node (S D) j)) as [HS|HS].
  - assert (t = S D) as ->.
    { destruct (decide (t = S D)) as [?|Hne]; [done|].
      destruct Htop as [?|Htop]; [done|]. exfalso. apply Htop.
      apply (node_mono (S D)); [done|lia]. }
    destruct (node_S_lower _ _ HS) as [Hlo Hlo'].
    pose proof (node_le _ _ HS) as Hle. rewrite Nat.pow_succ_r' in Hle.
    rewrite (Hm j D), (Hm (j - 2 ^ D) D); try lia; auto.
    + rewrite add32_wrap. f_equal.
      rewrite Nat.pow_succ_r'.
      replace (2 * 2 ^ D) with (2 ^ D + 2 ^ D) by lia.
      rewrite psum_add.
      replace (j + 1 - (2 ^ D + 2 ^ D) + 2 ^ D) with (j + 1 - 2 ^ D) by lia.
      replace (j - 2 ^ D + 1 - 2 ^ D) with (j + 1 - (2 ^ D + 2 ^ D)) by lia.
      lia.
    + by apply node_S_node.
  - assert (t <> S D) by (intros ->; done).
    apply Hm; [done|lia|done|]. destruct Htop as [?|?]; [lia|by right].
Qed.

Lemma upsweep_inv L : up_inv x L (upsweep (seq 0 T) n L x).
Proof.
  unfold upsweep. induction L as [|L IH]; [apply up_inv_0|].
  rewrite seq_S, fold_left_app. simpl. by apply up_inv_step.
Qed.

Lemma down_inv_step L D m Q :
  n = Q * 2 ^ L -> S D <= L ->
  down_inv x L (S D) m ->
  down_inv x L D (par_for (seq 0 T) (downsweep_thread n D) m).
Proof.
  intros HQ HD (Hl & Htop & Hold). split; [|split].
  { rewrite par_for_length; [done|]. intros; apply downsweep_length. }
  - intros q r Hr Hj Hn. rewrite downsweep_step by lia.
    pose proof (pow2_pos D) as Hp. pose proof (node_le _ _ Hn) as Hle.
    destruct (decide (node (S D) (q * 2 ^ L + r))) as [HS|HS].
    + pose proof (proj1 (node_block L (S D) q r HD) HS) as HSr.
      pose proof (node_le _ _ HSr) as Hle'. rewrite Nat.pow_succ_r' in Hle'.
      destruct (node_S_lower _ _ HS) as [Hlo Hlo'].
      rewrite (Htop q r), (Hold (q * 2 ^ L + r - 2 ^ D) D); try done; try lia.
      rewrite add32_wrap. f_equal. rewrite Nat.pow_succ_r'.
      replace (r + 1 - 2 ^ D) with ((r + 1 - 2 * 2 ^ D) + 2 ^ D) by lia.
      rewrite psum_add.
      replace (q * 2 ^ L + r - 2 ^ D + 1 - 2 ^ D)
        with (q * 2 ^ L + (r + 1 - 2 * 2 ^ D)) by lia.
      done.
    + rewrite decide_True by (apply node_block; [lia|done]).
      assert (~ node (S D) r) as HSr by (by rewrite <- (node_block L _ q)).
      pose proof (node_mid _ _ Hn HSr) as Hmid.
      pose proof (chunk_fits L (S D) r HD Hr) as Hfit.
      rewrite Hmid, Nat.pow_succ_r' in Hfit.
      replace (q * 2 ^ L + r + 2 ^ D) with (q * 2 ^ L + (r + 2 ^ D)) by lia.
      rewrite Htop; [| lia | | by apply node_upper].
      * f_equal. f_equal. rewrite Nat.pow_succ_r'. lia.
      * rewrite x_length, HQ in *.
        assert (q < Q) by nia. nia.
  - intros j t Hj Ht Hn Hnt.
    assert (~ node D j) as HnD.
    { intros HD'. apply Hnt. apply (node_mono D); [done|lia]. }
    assert (~ node (S D) j) as HnS.
    { intros HD'. apply HnD. by apply node_S_node. }
    rewrite downsweep_step by lia.
    rewrite !decide_False by done. apply Hold; try done. lia.
Qed.

Lemma downsweep_inv L m Q :
  n = Q * 2 ^ L -> down_inv x L L m ->
  down_inv x L 0 (downsweep (seq 0 T) n L m).
Proof.
  intros HQ. unfold downsweep.
  assert (forall k m, k <= L -> down_inv x L k m ->
            down_inv x L 0
              (fold_left
                 (fun m d => par_for (seq 0 T) (downsweep_thread n d) m)
                 (rev (seq 0 k)) m)) as H.
  { induction k as [|k IH]; intros m' Hk Hm'; [done|].
    rewrite seq_S, rev_app_distr. simpl. apply IH; [lia|].
    by eapply down_inv_step. }
  by apply H.
Qed.

End BlockScan.

(** Phases in which thread [id] writes slot [id] of an array it does not
    read (the last phase of kernScanInclusive and most kernels of
    common.cu). *)
Lemma par_for_write (guard : nat -> bool) (val : nat -> Z) T (od : list Z) j :
  rd (par_for (seq 0 T)
        (fun id od => if guard id then <[id := val id]> od else od) od) j
  = if decide (j < T /\ guard j = true /\ j < length od) then val j
    else rd od j.
Proof.
  rewrite (par_for_owner _ (fun j => j)).
  - destruct (decide (j < T)) as [Hj|Hj].
    + destruct (guard j) eqn:G.
      * rewrite rd_insert. apply decide_ext.
        split; [intros [_ ?]; by split_and!|intros (_ & _ & ?); by split].
      * rewrite decide_False; [done|]. intros (_ & ? & _). congruence.
    + rewrite decide_False; [done|]. tauto.
  - intros id m. case_match; [by rewrite length_insert|done].
  - intros id m j' Hj'. case_match; [|done].
    rewrite rd_insert, decide_False; [done|]. intros [? _]. by apply Hj'.
  - intros id m m' Hl H j' Hj'. subst j'. case_match; [|by apply H].
    rewrite !rd_insert, Hl. case_decide; [done|by apply H].
Qed.

Lemma par_for_write_length (guard : nat -> bool) (val : nat -> Z) T
    (od : list Z) :
  length (par_for (seq 0 T)
            (fun id od => if guard id then <[id := val id]> od else od) od)
  = length od.
Proof.
  apply par_for_length. intros id m.
  case_match; [by rewrite length_insert|done].
Qed.

Lemma par_for_ext {S : Type} (f g : nat -> S -> S) l s :
  (forall id s, f id s = g id s) -> par_for l f s = par_for l g s.
Proof.
  intros H. unfold par_for. revert s.
  induction l as [|a l IH]; intros s; simpl; [done|]. by rewrite H, IH.
Qed.

Lemma emit_thread_write bdim n idata regs T od :
  par_for (seq 0 T) (emit_thread bdim n idata regs) od
  = par_for (seq 0 T)
      (fun id od =>
         if id <? n then
           <[id := if last_of_block bdim n id then rd regs id
                   else rd idata (id + 1)]> od
         else od) od.
Proof.
  apply par_for_ext. intros id s. unfold emit_thread.
  by repeat case_match.
Qed.

Section KernelSpec.

Variables (x odata : list Z) (g bdim n L Q : nat).
Hypothesis x_int32 : Forall int32 x.
Hypothesis x_length : length x = n.
Hypothesis odata_length : length odata = n.
Hypothesis threads_cover : n <= g * bdim.
Hypothesis whole_blocks : n = Q * 2 ^ L.
Hypothesis steps : ilog2ceil (if n <? bdim then n else bdim) = L.
Hypothesis last_node :
  forall j, j < n -> last_of_block bdim n j = true <-> node L j.

Lemma block_index j : j < n -> j / (2 ^ L) * (2 ^ L) + (2 ^ L) <= n.
Proof.
  intros Hj. pose proof (Nat.div_mod_eq j (2 ^ L)) as E.
  pose proof (pow2_pos L) as Hp.
  pose proof (Nat.mod_upper_bound j (2 ^ L)) as Hu.
  assert (j / (2 ^ L) < Q) by nia. nia.
Qed.

Lemma kernScanInclusive_blocks :
  kernScanInclusive g bdim n odata x
  = (block_inclusive (2 ^ L) x, block_exclusive (2 ^ L) x).
Proof.
  unfold kernScanInclusive, launch. rewrite steps, length_seq.
  set (T := g * bdim) in *.
  pose proof (upsweep_inv x n T x_int32 x_length threads_cover L) as Hup.
  set (m1 := upsweep (seq 0 T) n L x) in *.
  pose proof (capture_spec n bdim T m1 (replicate T 0%Z)) as Hcap.
  destruct (par_for (seq 0 T) (capture_thread bdim n)
              (m1, replicate T 0%Z)) as [m2 regs].
  cbv zeta in Hcap. simpl in Hcap.
  destruct Hcap as (Hl2 & Hlr & Hm2 & Hregs).
  rewrite length_replicate in *.
  destruct Hup as [Hl1 Hup].
  pose proof (pow2_pos L) as Hp.
  assert (down_inv x L L m2) as Hd.
  { split; [lia|split].
    - intros q r Hr Hj Hn. rewrite Hm2.
      rewrite decide_True.
      + replace (r + 1 - 2 ^ L) with 0; [done|]. unfold node in Hn.
        rewrite Nat.mod_small in Hn by done. lia.
      + split_and!; try lia. apply last_node; [lia|].
        by apply node_block.
    - intros j t Hj Ht Hn Hnt. rewrite Hm2.
      rewrite decide_False.
      + apply Hup; try done; [lia|by right].
      + intros (_ & _ & Hlast). apply Hnt.
        apply (node_mono L); [|lia]. apply last_node; [lia|done]. }
  pose proof (downsweep_inv x n T x_length threads_cover L m2 Q
                whole_blocks Hd) as (Hl3 & Hex & _).
  set (m3 := downsweep (seq 0 T) n L m2) in *.
  assert (forall j, j < n ->
            rd m3 j = wrap32 (psum x (j - j mod (2 ^ L)) (j mod (2 ^ L))))
    as Hm3.
  { intros j Hj. pose proof (Nat.div_mod_eq j (2 ^ L)) as E.
    pose proof (Nat.mod_upper_bound j (2 ^ L)) as Hu.
    replace j with (j / (2 ^ L) * 2 ^ L + j mod (2 ^ L)) at 1 by lia.
    rewrite Hex; [|apply Hu; lia|lia|apply node_0].
    change (2 ^ 0) with 1. f_equal. f_equal; lia. }
  f_equal.
  - rewrite emit_thread_write. apply list_eq_rd.
    { rewrite par_for_write_length. unfold block_inclusive.
      rewrite length_map_seq. lia. }
    intros j. rewrite par_for_write_length. intros Hj.
    rewrite par_for_write. unfold block_inclusive.
    rewrite rd_map_seq by lia.
    rewrite decide_True
      by (split_and!; [lia|by apply Nat.ltb_lt; lia|lia]).
    destruct (last_of_block bdim n j) eqn:Hlast.
    + apply last_node in Hlast; [|lia].
      rewrite Hregs by lia. rewrite decide_True.
      * rewrite (Hup j L); try done; [|lia|by left].
        unfold node in Hlast.
        f_equal. f_equal; lia.
      * split_and!; try lia. apply last_node; [lia|done].
    + assert (~ node L j) as Hn.
      { intros Hn. apply last_node in Hn; [|lia]. congruence. }
      unfold node in Hn.
      pose proof (Nat.div_mod_eq j (2 ^ L)) as E.
      pose proof (Nat.mod_upper_bound j (2 ^ L)) as Hu.
      pose proof (block_index j ltac:(lia)) as Hb.
      replace (j + 1) with (j / (2 ^ L) * 2 ^ L + (j mod (2 ^ L) + 1)) by lia.
      rewrite Hex; [|lia|lia|apply node_0].
      change (2 ^ 0) with 1. f_equal. f_equal; lia.
  - apply list_eq_rd.
    { unfold block_exclusive. rewrite length_map_seq. lia. }
    intros j Hj. unfold block_exclusive. rewrite rd_map_seq by lia.
    apply Hm3. lia.
Qed.

End KernelSpec.

(** * The level hierarchy *)

Lemma length_cudaMalloc junk len : length (cudaMalloc junk len) = len.
Proof. apply length_map_seq. Qed.

Lemma lookup_total_cons_S {A : Type} `{!Inhabited A} (a : A) l k :
  (a :: l) !!! S k = l !!! k.
Proof. done. Qed.

Section Hierarchy.

(** The block size is a power of two, at least 2. *)
Variable b : nat.
Hypothesis b_pos : 1 <= b.

Lemma blocks_of_pow2 q : blocks_of (2 ^ b) (2 ^ q) = 2 ^ (q - b).
Proof.
  unfold blocks_of. pose proof (pow2_pos b) as Hb.
  destruct (decide (q <= b)) as [Hq|Hq].
  - replace (q - b) with 0 by lia. change (2 ^ 0) with 1.
    assert (2 ^ q <= 2 ^ b) by (apply Nat.pow_le_mono_r; lia).
    pose proof (pow2_pos q).
    symmetry. apply (Nat.div_unique _ _ _ (2 ^ q - 1)); lia.
  - assert (2 ^ q = 2 ^ b * 2 ^ (q - b)) as E.
    { rewrite <- Nat.pow_add_r. f_equal. lia. }
    symmetry. apply (Nat.div_unique _ _ _ (2 ^ b - 1)); lia.
Qed.

Lemma blocks_of_gt_1 q : (1 <? blocks_of (2 ^ b) (2 ^ q)) = true <-> b < q.
Proof.
  rewrite blocks_of_pow2, Nat.ltb_lt. split; intros H.
  - destruct (decide (b < q)); [done|].
    replace (q - b) with 0 in H by lia. simpl in H. lia.
  - apply (Nat.pow_lt_mono_r 2 0 (q - b)); lia.
Qed.

Lemma count_scans_S fuel len c :
  count_scans (2 ^ b) (S fuel) len c
  = if 1 <? blocks_of (2 ^ b) len
    then count_scans (2 ^ b) fuel (blocks_of (2 ^ b) len) (S c) else c.
Proof. done. Qed.

(** The [while] loop of the drivers leaves by its condition: with fuel
    [q] or more, [count_scans] from length [2^q] gives a count [K] with
    just enough levels to end in a single block. *)
Lemma count_scans_spec fuel q c :
  q <= fuel ->
  let K := count_scans (2 ^ b) fuel (2 ^ q) c in
  c <= K /\ q - (K - c) * b <= b /\
  (forall i, i < K - c -> b < q - i * b).
Proof.
  revert q c. induction fuel as [|fuel IH]; intros q c Hq; cbv zeta.
  - simpl. replace (c - c) with 0 by lia. split_and!; [lia|lia|]. lia.
  - rewrite count_scans_S. destruct (1 <? blocks_of (2 ^ b) (2 ^ q)) eqn:E.
    + apply blocks_of_gt_1 in E. rewrite blocks_of_pow2.
      specialize (IH (q - b) (S c) ltac:(lia)). cbv zeta in IH.
      destruct IH as (H1 & H2 & H3).
      set (K := count_scans (2 ^ b) fuel (2 ^ (q - b)) (S c)) in *.
      split_and!; [lia| |].
      * replace (K - c) with (S (K - S c)) by lia. lia.
      * intros [|i] Hi; [lia|]. specialize (H3 i ltac:(lia)). lia.
    + assert (~ b < q) as Hn.
      { intros Hlt. apply blocks_of_gt_1 in Hlt. congruence. }
      replace (c - c) with 0 by lia. split_and!; [lia|lia|]. lia.
Qed.

Lemma count_scans_fuel fuel fuel' q c :
  q <= fuel -> q <= fuel' ->
  count_scans (2 ^ b) fuel (2 ^ q) c = count_scans (2 ^ b) fuel' (2 ^ q) c.
Proof.
  revert fuel' q c.
  induction fuel as [|fuel IH]; intros fuel' q c Hq Hq'.
  - assert (q = 0) as -> by lia. destruct fuel'; [done|].
    rewrite count_scans_S.
    destruct (1 <? blocks_of (2 ^ b) (2 ^ 0)) eqn:E; [|done].
    apply blocks_of_gt_1 in E. lia.
  - rewrite count_scans_S. destruct (1 <? blocks_of (2 ^ b) (2 ^ q)) eqn:E.
    + pose proof (proj1 (blocks_of_gt_1 q) E) as Hlt.
      destruct fuel' as [|fuel']; [lia|]. rewrite count_scans_S, E.
      rewrite blocks_of_pow2. apply IH; lia.
    + destruct fuel' as [|fuel']; [done|]. by rewrite count_scans_S, E.
Qed.

Lemma num_scans_spec p :
  let K := num_scans_of (2 ^ b) (2 ^ p) in
  1 <= K /\ p - (K - 1) * b <= b /\ (forall i, i + 1 < K -> b < p - i * b).
Proof.
  cbv zeta. unfold num_scans_of.
  pose proof (count_scans_spec (2 ^ p) p 1
                (Nat.lt_le_incl _ _ (Nat.pow_gt_lin_r 2 p ltac:(lia))))
    as (H1 & H2 & H3).
  split_and!; try done. intros i Hi. apply H3. lia.
Qed.

(** The sizes given by the allocation loop. *)
Lemma alloc_levels_sizes junk first todo i q :
  let s := alloc_levels (2 ^ b) junk first todo i (2 ^ q) in
  array_sizes s = map (fun k => 2 ^ (q - k * b)) (seq 0 todo) /\
  grid_sizes s = map (fun k => 2 ^ (q - (k + 1) * b)) (seq 0 todo) /\
  length (dev_idata s) = todo /\ length (dev_odata s) = todo /\
  length (dev_buffer s) = todo /\
  (forall k, k < todo ->
     dev_idata s !!! k
     = cudaMalloc (junk (first + 3 * (i + k))) (2 ^ (q - k * b)) /\
     length (dev_odata s !!! k) = 2 ^ (q - k * b) /\
     length (dev_buffer s !!! k) = 2 ^ (q - k * b)).
Proof.
  revert i q. induction todo as [|todo IH]; intros i q; cbv zeta.
  { simpl. split_and!; try done. lia. }
  simpl. rewrite blocks_of_pow2.
  specialize (IH (S i) (q - b)). cbv zeta in IH.
  destruct IH as (H1 & H2 & H3 & H4 & H5 & H6).
  rewrite H1, H2, H3, H4, H5. rewrite <- !seq_shift, !map_map.
  split_and!; try done.
  - f_equal; [f_equal; lia|]. apply map_ext. intros k. f_equal. lia.
  - f_equal; [f_equal; lia|]. apply map_ext. intros k. f_equal. lia.
  - intros [|k] Hk.
    + cbn [lookup_total list_lookup_total].
      rewrite !length_cudaMalloc. split_and!.
      * f_equal; [f_equal; lia|f_equal; lia].
      * f_equal; lia.
      * f_equal; lia.
    + destruct (H6 k ltac:(lia)) as (E1 & E2 & E3).
      rewrite !lookup_total_cons_S, E1, E2, E3. split_and!.
      * f_equal; [f_equal; lia|f_equal; lia].
      * f_equal; lia.
      * f_equal; lia.
Qed.

End Hierarchy.

(** * The kernels of common.cu, slot by slot *)

Lemma kernShiftToExclusive_spec g bdim n odata idata :
  length odata = n -> n <= g * bdim ->
  kernShiftToExclusive g bdim n odata idata
  = map (fun j => if j =? 0 then 0%Z else rd idata (j - 1)) (seq 0 n).
Proof.
  intros Hl Hc. unfold kernShiftToExclusive, launch.
  pose proof (par_for_write (fun id => id <? n)
                (fun id => if id =? 0 then 0%Z else rd idata (id - 1))
                (g * bdim) odata) as H.
  pose proof (par_for_write_length (fun id => id <? n)
                (fun id => if id =? 0 then 0%Z else rd idata (id - 1))
                (g * bdim) odata) as Hlen.
  cbv beta in H, Hlen. apply list_eq_rd.
  - rewrite Hlen, length_map_seq. done.
  - intros j Hj. rewrite Hlen in Hj. rewrite H, rd_map_seq by lia.
    rewrite decide_True; [done|]. split_and!; [lia| |lia].
    apply Nat.ltb_lt. lia.
Qed.

Lemma kernAddOffsetPerBlock_spec g bdim n odata offs idata :
  length odata = n -> n <= g * bdim ->
  kernAddOffsetPerBlock g bdim n odata offs idata
  = map (fun j => add32 (rd idata j) (rd offs (j / bdim))) (seq 0 n).
Proof.
  intros Hl Hc. unfold kernAddOffsetPerBlock, launch.
  pose proof (par_for_write (fun id => id <? n)
                (fun id => add32 (rd idata id) (rd offs (id / bdim)))
                (g * bdim) odata) as H.
  pose proof (par_for_write_length (fun id => id <? n)
                (fun id => add32 (rd idata id) (rd offs (id / bdim)))
                (g * bdim) odata) as Hlen.
  cbv beta in H, Hlen. apply list_eq_rd.
  - rewrite Hlen, length_map_seq. done.
  - intros j Hj. rewrite Hlen in Hj. rewrite H, rd_map_seq by lia.
    rewrite decide_True; [done|]. split_and!; [lia| |lia].
    apply Nat.ltb_lt. lia.
Qed.

Lemma kernMapToBoolean_spec g bdim n bools idata :
  length bools = n -> n <= g * bdim ->
  kernMapToBoolean g bdim n bools idata
  = map (fun j => if (rd idata j =? 0)%Z then 0%Z else 1%Z) (seq 0 n).
Proof.
  intros Hl Hc. unfold kernMapToBoolean, launch.
  pose proof (par_for_write (fun id => id <? n)
                (fun id => if (rd idata id =? 0)%Z then 0%Z else 1%Z)
                (g * bdim) bools) as H.
  pose proof (par_for_write_length (fun id => id <? n)
                (fun id => if (rd idata id =? 0)%Z then 0%Z else 1%Z)
                (g * bdim) bools) as Hlen.
  cbv beta in H, Hlen. apply list_eq_rd.
  - rewrite Hlen, length_map_seq. done.
  - intros j Hj. rewrite Hlen in Hj. rewrite H, rd_map_seq by lia.
    rewrite decide_True; [done|]. split_and!; [lia| |lia].
    apply Nat.ltb_lt. lia.
Qed.

Lemma last_slot_mod Q bdim : 0 < Q -> 0 < bdim ->
  (Q * bdim - 1) mod bdim = bdim - 1.
Proof.
  intros HQ Hb.
  replace (Q * bdim - 1) with ((bdim - 1) + (Q - 1) * bdim) by nia.
  rewrite Nat.Div0.mod_add. apply Nat.mod_small. lia.
Qed.

Lemma kernExtractLastElementPerBlock_spec g bdim n Q odata idata :
  0 < bdim -> n = Q * bdim -> length odata = Q -> n <= g * bdim ->
  kernExtractLastElementPerBlock g bdim n odata idata
  = map (fun k => rd idata (k * bdim + bdim - 1)) (seq 0 Q).
Proof.
  intros Hb Hn Hl Hc. unfold kernExtractLastElementPerBlock, launch.
  set (body := fun id od =>
         if (id <? n) && last_of_block bdim n id
         then <[id / bdim := rd idata id]> od else od).
  assert (forall id m, length (body id m) = length m) as Blen.
  { intros id m. unfold body. case_match; [by rewrite length_insert|done]. }
  assert (forall id, id < n -> last_of_block bdim n id = true ->
            id = id / bdim * bdim + bdim - 1) as Hlast.
  { intros id Hid Hlast. unfold last_of_block in Hlast.
    assert (id mod bdim = bdim - 1) as E.
    { apply orb_true_iff in Hlast as [E%Nat.eqb_eq|E%Nat.eqb_eq]; [done|].
      subst id n. apply last_slot_mod; [|done]. destruct Q; lia. }
    pose proof (Nat.div_mod_eq id bdim). lia. }
  assert (forall id m j, j * bdim + bdim - 1 <> id ->
            rd (body id m) j = rd m j) as Bframe.
  { intros id m j Hj. unfold body. case_match eqn:C; [|done].
    apply andb_true_iff in C as [C1%Nat.ltb_lt C2].
    rewrite rd_insert, decide_False; [done|]. intros [<- _].
    apply Hj. symmetry. by apply Hlast. }
  assert (forall id m m', length m = length m' ->
            (forall j, j * bdim + bdim - 1 = id -> rd m j = rd m' j) ->
            forall j, j * bdim + bdim - 1 = id ->
              rd (body id m) j = rd (body id m') j) as Blocal.
  { intros id m m' Hlm H j Hj. unfold body. case_match; [|by apply H].
    rewrite !rd_insert, Hlm. case_decide; [done|by apply H]. }
  apply list_eq_rd.
  - rewrite par_for_length, length_map_seq by done. done.
  - intros k Hk. rewrite par_for_length in Hk by done.
    rewrite (par_for_owner body (fun j => j * bdim + bdim - 1)) by done.
    rewrite rd_map_seq by lia.
    assert (k * bdim + bdim - 1 < n) as Hown by nia.
    rewrite decide_True by lia. unfold body.
    assert ((k * bdim + bdim - 1) mod bdim = bdim - 1) as Hmod.
    { replace (k * bdim + bdim - 1) with ((bdim - 1) + k * bdim) by lia.
      rewrite Nat.Div0.mod_add. apply Nat.mod_small. lia. }
    assert ((k * bdim + bdim - 1) / bdim = k) as Hdiv.
    { symmetry. apply (Nat.div_unique _ _ _ (bdim - 1)); lia. }
    replace (k * bdim + bdim - 1 <? n) with true
      by (symmetry; by apply Nat.ltb_lt).
    unfold last_of_block. rewrite Hmod, Nat.eqb_refl. simpl.
    rewrite rd_insert, Hdiv. rewrite decide_True; [done|]. split; [done|lia].
Qed.

(** * Prefix sums of group totals *)

Lemma length_exclusive_scan x : length (exclusive_scan x) = length x.
Proof. apply length_map_seq. Qed.

Lemma length_inclusive_scan x : length (inclusive_scan x) = length x.
Proof. apply length_map_seq. Qed.

Lemma length_block_inclusive B x : length (block_inclusive B x) = length x.
Proof. apply length_map_seq. Qed.

Lemma length_block_exclusive B x : length (block_exclusive B x) = length x.
Proof. apply length_map_seq. Qed.

Lemma length_block_totals B x : length (block_totals B x) = length x / B.
Proof. apply length_map_seq. Qed.

Lemma rd_exclusive_scan x j :
  j < length x -> rd (exclusive_scan x) j = wrap32 (psum x 0 j).
Proof. intros H. unfold exclusive_scan. by rewrite rd_map_seq. Qed.

Lemma rd_inclusive_scan x j :
  j < length x -> rd (inclusive_scan x) j = wrap32 (psum x 0 (S j)).
Proof. intros H. unfold inclusive_scan. by rewrite rd_map_seq. Qed.

Lemma rd_block_inclusive B x j :
  j < length x ->
  rd (block_inclusive B x) j = wrap32 (psum x (j - j mod B) (j mod B + 1)).
Proof. intros H. unfold block_inclusive. by rewrite rd_map_seq. Qed.

Lemma rd_block_totals B x k :
  k < length x / B -> rd (block_totals B x) k = wrap32 (psum x (k * B) B).
Proof. intros H. unfold block_totals. by rewrite rd_map_seq. Qed.

Lemma psum_block_totals B x q :
  q <= length x / B ->
  wrap32 (psum (block_totals B x) 0 q) = wrap32 (psum x 0 (q * B)).
Proof.
  induction q as [|q IH]; intros Hq; [done|].
  rewrite psum_S. simpl. rewrite rd_block_totals by lia.
  rewrite wrap32_add_r, <- wrap32_add_l, IH by lia.
  rewrite wrap32_add_l. f_equal.
  replace (B + q * B) with (q * B + B) by lia. by rewrite psum_add.
Qed.

(** Adding to the inclusive scan of every group the exclusive scan of the
    group totals gives the inclusive scan of the whole array. *)
Lemma add_offsets_inclusive B Q x :
  0 < B -> length x = Q * B ->
  map (fun j => add32 (rd (block_inclusive B x) j)
                      (rd (exclusive_scan (block_totals B x)) (j / B)))
      (seq 0 (length x))
  = inclusive_scan x.
Proof.
  intros HB HQ. apply list_eq_rd.
  { by rewrite length_inclusive_scan, length_map_seq. }
  intros j Hj. rewrite length_map_seq in Hj.
  rewrite rd_map_seq, rd_inclusive_scan, rd_block_inclusive by lia.
  pose proof (Nat.div_mod_eq j B) as E.
  assert (length x / B = Q) as HQ' by (rewrite HQ; by apply Nat.div_mul; lia).
  assert (j / B < Q) as Hq by (apply Nat.Div0.div_lt_upper_bound; lia).
  rewrite rd_exclusive_scan by (rewrite length_block_totals; lia).
  rewrite <- (wrap32_idemp (psum (block_totals _ _) _ _)).
  rewrite psum_block_totals by lia.
  rewrite wrap32_idemp, add32_wrap. f_equal.
  replace (S j) with (j / B * B + (j mod B + 1)) by lia.
  replace (j - j mod B) with (0 + j / B * B) by lia.
  rewrite (psum_add x 0 (j / B * B) (j mod B + 1)). lia.
Qed.

(** On a single group the two scans agree. *)
Lemma block_inclusive_whole B x :
  length x <= B -> block_inclusive B x = inclusive_scan x.
Proof.
  intros H. unfold block_inclusive, inclusive_scan.
  apply map_ext_in. intros j Hj%in_seq.
  rewrite Nat.mod_small by lia. f_equal. f_equal; lia.
Qed.

Lemma shift_inclusive x :
  map (fun j => if j =? 0 then 0%Z else rd (inclusive_scan x) (j - 1))
      (seq 0 (length x))
  = exclusive_scan x.
Proof.
  unfold exclusive_scan. apply map_ext_in. intros j Hj%in_seq.
  destruct j as [|j]; [done|]. simpl.
  rewrite rd_inclusive_scan by lia. f_equal. f_equal. lia.
Qed.

Lemma block_totals_last B Q x :
  0 < B -> length x = Q * B ->
  map (fun k => rd (block_inclusive B x) (k * B + B - 1)) (seq 0 Q)
  = block_totals B x.
Proof.
  intros HB HQ. unfold block_totals.
  replace (length x / B) with Q by (rewrite HQ; symmetry; by apply Nat.div_mul; lia).
  apply map_ext_in. intros k Hk%in_seq.
  rewrite rd_block_inclusive by nia.
  replace (k * B + B - 1) with ((B - 1) + k * B) by lia.
  rewrite Nat.Div0.mod_add, Nat.mod_small by lia. f_equal. f_equal; lia.
Qed.

Lemma block_totals_int32 B x : Forall int32 (block_totals B x).
Proof.
  unfold block_totals. apply Forall_forall. intros v Hv.
  apply list_elem_of_In, in_map_iff in Hv as (k & <- & _). apply wrap32_int32.
Qed.

(** * kernScanInclusive on one level *)

Lemma pow2_le a c : a <= c -> 2 ^ a <= 2 ^ c.
Proof. intros H. apply Nat.pow_le_mono_r; lia. Qed.

Lemma pow2_lt a c : a < c -> 2 ^ a < 2 ^ c.
Proof. intros H. apply Nat.pow_lt_mono_r; lia. Qed.

Lemma pow2_split a c : a <= c -> 2 ^ c = 2 ^ (c - a) * 2 ^ a.
Proof. intros H. rewrite <- Nat.pow_add_r. f_equal. lia. Qed.

Lemma pow2_div a c : a <= c -> 2 ^ c / 2 ^ a = 2 ^ (c - a).
Proof.
  intros H. rewrite (pow2_split a c H). apply Nat.div_mul.
  pose proof (pow2_pos a). lia.
Qed.

Lemma level_steps b q :
  ilog2ceil (if 2 ^ q <? 2 ^ b then 2 ^ q else 2 ^ b) = min q b.
Proof.
  unfold ilog2ceil. destruct (decide (q < b)) as [H|H].
  - pose proof (pow2_lt _ _ H) as Hlt. apply Nat.ltb_lt in Hlt.
    rewrite Hlt, Nat.log2_up_pow2 by lia. lia.
  - pose proof (pow2_le b q ltac:(lia)) as Hle. apply Nat.ltb_ge in Hle.
    rewrite Hle, Nat.log2_up_pow2 by lia. lia.
Qed.

Lemma level_last b q j :
  j < 2 ^ q -> last_of_block (2 ^ b) (2 ^ q) j = true <-> node (min q b) j.
Proof.
  intros Hj. unfold last_of_block, node.
  pose proof (pow2_pos b) as Hb. pose proof (pow2_pos q) as Hq.
  rewrite orb_true_iff, !Nat.eqb_eq.
  destruct (decide (q < b)) as [H|H].
  - replace (min q b) with q by lia.
    pose proof (pow2_lt _ _ H) as Hlt.
    rewrite !Nat.mod_small by lia. lia.
  - replace (min q b) with b by lia. split; [|by left].
    intros [E|E]; [done|]. subst j.
    rewrite (pow2_split b q) by lia. apply last_slot_mod; [|done].
    apply pow2_pos.
Qed.

Lemma kernScanInclusive_level b q odata x :
  Forall int32 x -> length x = 2 ^ q -> length odata = 2 ^ q ->
  kernScanInclusive (2 ^ (q - b)) (2 ^ b) (2 ^ q) odata x
  = (block_inclusive (2 ^ min q b) x, block_exclusive (2 ^ min q b) x).
Proof.
  intros Hx Hlx Hlo.
  apply (kernScanInclusive_blocks x odata (2 ^ (q - b)) (2 ^ b) (2 ^ q)
           (min q b) (2 ^ (q - min q b))); try done.
  - rewrite <- Nat.pow_add_r. apply pow2_le. lia.
  - apply pow2_split. lia.
  - apply level_steps.
  - intros j Hj. by apply level_last.
Qed.

Lemma level_cover b q : 2 ^ q <= 2 ^ (q - b) * 2 ^ b.
Proof. rewrite <- Nat.pow_add_r. apply pow2_le. lia. Qed.

Lemma lookup_levels_eq (l : list (list Z)) i v :
  i < length l -> <[i := v]> l !!! i = v.
Proof. apply list_lookup_total_insert_eq. Qed.

Lemma lookup_levels_ne (l : list (list Z)) i j v :
  i <> j -> <[i := v]> l !!! j = l !!! j.
Proof. apply list_lookup_total_insert_ne. Qed.

Lemma cudaMemcpy_all dst src cnt :
  length src = cnt -> length dst = cnt -> cudaMemcpy dst src cnt = src.
Proof.
  intros Hs Hd. unfold cudaMemcpy.
  rewrite take_ge, drop_ge by lia. apply app_nil_r.
Qed.

(** * The two kernel loops *)

Section Loops.

Variables (b p : nat) (in0 : list Z).
Hypothesis b_pos : 1 <= b.
Hypothesis in0_length : length in0 = 2 ^ p.
Hypothesis in0_int32 : Forall int32 in0.

Lemma num_levels :
  1 <= num_scans_of (2 ^ b) (2 ^ p) /\
  p - (num_scans_of (2 ^ b) (2 ^ p) - 1) * b <= b /\
  (forall i, i + 1 < num_scans_of (2 ^ b) (2 ^ p) -> b < p - i * b).
Proof. apply (num_scans_spec b b_pos p). Qed.

Lemma level_input_int32 i : Forall int32 (level_input (2 ^ b) i in0).
Proof. destruct i as [|i]; [done|]. apply block_totals_int32. Qed.

Lemma level_input_length i :
  i < num_scans_of (2 ^ b) (2 ^ p) ->
  length (level_input (2 ^ b) i in0) = level_size b p i.
Proof.
  destruct num_levels as (_ & _ & Hlow). unfold level_size.
  induction i as [|i IH]; intros Hi.
  - simpl level_input. rewrite in0_length. f_equal. lia.
  - simpl level_input. rewrite length_block_totals, IH by lia.
    specialize (Hlow i ltac:(lia)).
    rewrite pow2_div by lia. f_equal. lia.
Qed.

Lemma level_block_low i :
  i + 1 < num_scans_of (2 ^ b) (2 ^ p) -> level_block b p i = 2 ^ b.
Proof.
  intros Hi. destruct num_levels as (_ & _ & Hlow).
  specialize (Hlow i Hi). unfold level_block. f_equal. lia.
Qed.

Lemma level_size_low i :
  i + 1 < num_scans_of (2 ^ b) (2 ^ p) ->
  level_size b p i = level_size b p (S i) * 2 ^ b.
Proof.
  intros Hi. destruct num_levels as (_ & _ & Hlow).
  specialize (Hlow i Hi). unfold level_size.
  rewrite (pow2_split b (p - i * b)) by lia. f_equal. f_equal. lia.
Qed.

Lemma level_block_top i :
  i + 1 = num_scans_of (2 ^ b) (2 ^ p) ->
  level_size b p i <= level_block b p i.
Proof.
  intros Hi. destruct num_levels as (_ & Htop & _).
  replace (num_scans_of (2 ^ b) (2 ^ p) - 1) with i in Htop by lia.
  unfold level_size, level_block. apply pow2_le. lia.
Qed.

(** One iteration of the upward loop. *)
Lemma up_level_done k s :
  k < num_scans_of (2 ^ b) (2 ^ p) ->
  up_done b p (num_scans_of (2 ^ b) (2 ^ p)) in0 k s ->
  up_done b p (num_scans_of (2 ^ b) (2 ^ p)) in0 (S k)
          (up_level (2 ^ b) (num_scans_of (2 ^ b) (2 ^ p)) k s).
Proof.
  set (K := num_scans_of (2 ^ b) (2 ^ p)).
  intros Hk ((Hli & Hlo & Hlb & Hwf) & Hdone & Hin).
  destruct (Hwf k Hk) as (Hsz & Hgr & Hik & Hok & Hbk).
  specialize (Hin Hk).
  pose proof (level_input_length k Hk) as Hlen. fold K in Hlen.
  unfold up_level. rewrite Hsz, Hgr, Hin. unfold level_size at 1 2 3.
  replace (p - S k * b) with (p - k * b - b) by lia.
  rewrite kernScanInclusive_level;
    [|apply level_input_int32|done|by rewrite Hbk].
  fold (level_block b p k). fold (level_size b p k).
  set (incl := block_inclusive (level_block b p k)
                               (level_input (2 ^ b) k in0)).
  assert (length incl = level_size b p k) as Hincl
    by (unfold incl; by rewrite length_block_inclusive).
  rewrite cudaMemcpy_all by (by rewrite ?length_block_exclusive).
  destruct (k <? K - 1) eqn:Hnext.
  - apply Nat.ltb_lt in Hnext.
    rewrite lookup_levels_ne by lia.
    destruct (Hwf (k + 1) ltac:(lia)) as (_ & _ & Hik1 & _).
    rewrite (kernExtractLastElementPerBlock_spec _ _ _ (level_size b p (S k)));
      [|apply pow2_pos|apply level_size_low; fold K; lia
       |by rewrite Hik1, Nat.add_1_r
       |rewrite (level_size_low k) by (fold K; lia);
        replace (p - k * b - b) with (p - S k * b) by lia; done].
    unfold incl. rewrite (level_block_low k) by (fold K; lia).
    rewrite (block_totals_last _ (level_size b p (S k)));
      [|apply pow2_pos|rewrite Hlen; apply level_size_low; fold K; lia].
    split; [|split].
    + split_and!; simpl; rewrite ?length_insert; try done.
      intros i Hi. destruct (Hwf i Hi) as (? & ? & ? & ? & ?).
      split_and!; try done.
      * destruct (decide (i = k + 1)) as [->|].
        { rewrite lookup_levels_eq by (rewrite length_insert; lia).
          rewrite length_block_totals, Hlen, Nat.add_1_r.
          rewrite (level_size_low k) by (fold K; lia).
          apply Nat.div_mul. pose proof (pow2_pos b). lia. }
        rewrite lookup_levels_ne by lia.
        destruct (decide (i = k)) as [->|].
        { rewrite lookup_levels_eq by lia. rewrite length_block_inclusive.
          done. }
        by rewrite lookup_levels_ne by lia.
      * destruct (decide (i = k)) as [->|].
        { rewrite lookup_levels_eq by lia. rewrite length_block_inclusive.
          done. }
        by rewrite lookup_levels_ne by lia.
    + intros i Hi. simpl.
      rewrite (lookup_levels_ne _ (k + 1)) by lia.
      destruct (decide (i = k)) as [->|].
      * rewrite !lookup_levels_eq by lia.
        by rewrite (level_block_low k) by (fold K; lia).
      * rewrite !lookup_levels_ne by lia. apply Hdone. lia.
    + intros _. simpl. rewrite Nat.add_1_r.
      by rewrite lookup_levels_eq by (rewrite length_insert; lia).
  - apply Nat.ltb_ge in Hnext. split; [|split].
    + split_and!; simpl; rewrite ?length_insert; try done.
      intros i Hi. destruct (Hwf i Hi) as (? & ? & ? & ? & ?).
      split_and!; try done.
      * destruct (decide (i = k)) as [->|].
        { by rewrite lookup_levels_eq by lia. }
        by rewrite lookup_levels_ne by lia.
      * destruct (decide (i = k)) as [->|].
        { by rewrite lookup_levels_eq by lia. }
        by rewrite lookup_levels_ne by lia.
    + intros i Hi. simpl. destruct (decide (i = k)) as [->|].
      * by rewrite !lookup_levels_eq by lia.
      * rewrite !lookup_levels_ne by lia. apply Hdone. lia.
    + intros Hlt. lia.
Qed.

(** One iteration of the downward loop. *)
Lemma down_level_done k s :
  k < num_scans_of (2 ^ b) (2 ^ p) ->
  down_done b p (num_scans_of (2 ^ b) (2 ^ p)) in0 (S k) s ->
  down_done b p (num_scans_of (2 ^ b) (2 ^ p)) in0 k (down_level (2 ^ b) k s).
Proof.
  set (K := num_scans_of (2 ^ b) (2 ^ p)).
  intros Hk ((Hli & Hlo & Hlb & Hwf) & Hex & Hbuf & Hid).
  destruct (Hwf k Hk) as (Hsz & Hgr & Hik & Hok & Hbk).
  specialize (Hbuf ltac:(lia)). replace (S k - 1) with k in Hbuf by lia.
  pose proof (level_input_length k Hk) as Hlen. fold K in Hlen.
  unfold down_level. rewrite Hsz, Hgr.
  rewrite kernShiftToExclusive_spec;
    [|done|unfold level_size; replace (p - S k * b) with (p - k * b - b) by lia;
           apply level_cover].
  rewrite Hbuf, <- Hlen, shift_inclusive.
  destruct (1 <=? k) eqn:Hpos.
  - apply Nat.leb_le in Hpos.
    destruct (Hwf (k - 1) ltac:(lia)) as (Hsz' & Hgr' & Hik' & Hok' & Hbk').
    pose proof (level_input_length (k - 1) ltac:(fold K; lia)) as Hlen'.
    rewrite Hsz', Hgr'.
    rewrite kernAddOffsetPerBlock_spec;
      [|done|unfold level_size;
             replace (p - S (k - 1) * b) with (p - (k - 1) * b - b) by lia;
             apply level_cover].
    rewrite (Hid (k - 1)) by lia.
    rewrite (level_block_low (k - 1)) by (fold K; lia).
    replace (level_input (2 ^ b) k in0)
      with (block_totals (2 ^ b) (level_input (2 ^ b) (k - 1) in0))
      by (replace k with (S (k - 1)) at 2 by lia; done).
    rewrite <- Hlen'.
    rewrite (add_offsets_inclusive _ (level_size b p k));
      [|apply pow2_pos
       |rewrite Hlen', (level_size_low (k - 1)) by (fold K; lia);
        by replace (S (k - 1)) with k by lia].
    replace (block_totals (2 ^ b) (level_input (2 ^ b) (k - 1) in0))
      with (level_input (2 ^ b) k in0)
      by (replace k with (S (k - 1)) at 1 by lia; done).
    split; [|split; [|split]].
    + split_and!; simpl; rewrite ?length_insert; try done.
      intros i Hi. destruct (Hwf i Hi) as (? & ? & ? & ? & ?).
      split_and!; try done.
      * destruct (decide (i = k)) as [->|].
        { rewrite lookup_levels_eq by lia.
          by rewrite length_exclusive_scan. }
        by rewrite lookup_levels_ne by lia.
      * destruct (decide (i = k - 1)) as [->|].
        { rewrite lookup_levels_eq by lia.
          by rewrite length_inclusive_scan. }
        by rewrite lookup_levels_ne by lia.
    + intros i Hi. simpl. destruct (decide (i = k)) as [->|].
      * by rewrite lookup_levels_eq by lia.
      * rewrite lookup_levels_ne by lia. apply Hex. lia.
    + intros _. simpl. by rewrite lookup_levels_eq by lia.
    + intros i Hi. simpl. by apply Hid.
  - apply Nat.leb_gt in Hpos. split; [|split; [|split]].
    + split_and!; simpl; rewrite ?length_insert; try done.
      intros i Hi. destruct (Hwf i Hi) as (? & ? & ? & ? & ?).
      split_and!; try done.
      destruct (decide (i = k)) as [->|].
      { rewrite lookup_levels_eq by lia.
        by rewrite length_exclusive_scan. }
      by rewrite lookup_levels_ne by lia.
    + intros i Hi. simpl. destruct (decide (i = k)) as [->|].
      * by rewrite lookup_levels_eq by lia.
      * rewrite lookup_levels_ne by lia. apply Hex. lia.
    + intros Hlt. lia.
    + intros i Hi. simpl. by apply Hid.
Qed.

Lemma upward_done k s :
  k <= num_scans_of (2 ^ b) (2 ^ p) ->
  up_done b p (num_scans_of (2 ^ b) (2 ^ p)) in0 0 s ->
  up_done b p (num_scans_of (2 ^ b) (2 ^ p)) in0 k
          (upward (2 ^ b) (num_scans_of (2 ^ b) (2 ^ p)) k s).
Proof.
  intros Hk H0. unfold upward. induction k as [|k IH]; [done|].
  rewrite seq_S, fold_left_app. simpl. apply up_level_done; [lia|].
  apply IH. lia.
Qed.

Lemma up_done_down_done s :
  up_done b p (num_scans_of (2 ^ b) (2 ^ p)) in0
          (num_scans_of (2 ^ b) (2 ^ p)) s ->
  down_done b p (num_scans_of (2 ^ b) (2 ^ p)) in0
            (num_scans_of (2 ^ b) (2 ^ p)) s.
Proof.
  set (K := num_scans_of (2 ^ b) (2 ^ p)).
  intros (Hwf & Hdone & _). destruct num_levels as (HK & _ & _). fold K in HK.
  split; [done|split; [|split]].
  - intros i Hi. lia.
  - intros _. destruct (Hdone (K - 1) ltac:(lia)) as [-> _].
    apply block_inclusive_whole.
    rewrite level_input_length by (fold K; lia).
    apply level_block_top. fold K. lia.
  - intros i Hi. by apply Hdone.
Qed.

Lemma downward_done s :
  down_done b p (num_scans_of (2 ^ b) (2 ^ p)) in0
            (num_scans_of (2 ^ b) (2 ^ p)) s ->
  down_done b p (num_scans_of (2 ^ b) (2 ^ p)) in0 0
            (downward (2 ^ b) (num_scans_of (2 ^ b) (2 ^ p)) s).
Proof.
  set (K := num_scans_of (2 ^ b) (2 ^ p)). unfold downward.
  assert (forall k s, k <= K -> down_done b p K in0 k s ->
            down_done b p K in0 0
              (fold_left (fun s i => down_level (2 ^ b) i s)
                         (rev (seq 0 k)) s)) as H.
  { induction k as [|k IH]; intros s' Hk Hs'; [done|].
    rewrite seq_S, rev_app_distr. simpl. apply IH; [lia|].
    apply down_level_done; [fold K; lia|done]. }
  by apply H.
Qed.

(** The two loops leave in [dev_odata[0]] the exclusive scan of what
    [dev_idata[0]] held, whatever the other arrays held. *)
Lemma levels_scan s :
  wf_levels b p (num_scans_of (2 ^ b) (2 ^ p)) s ->
  dev_idata s !!! 0 = in0 ->
  dev_odata (downward (2 ^ b) (num_scans_of (2 ^ b) (2 ^ p))
               (upward (2 ^ b) (num_scans_of (2 ^ b) (2 ^ p))
                       (num_scans_of (2 ^ b) (2 ^ p)) s)) !!! 0
  = exclusive_scan in0.
Proof.
  intros Hwf H0. destruct num_levels as (HK & _ & _).
  assert (up_done b p (num_scans_of (2 ^ b) (2 ^ p)) in0 0 s) as Hup.
  { split; [done|split]; [intros i Hi; lia|done]. }
  apply (upward_done (num_scans_of (2 ^ b) (2 ^ p))) in Hup; [|done].
  apply up_done_down_done, downward_done in Hup.
  destruct Hup as (_ & Hex & _). apply (Hex 0). lia.
Qed.

End Loops.

(** * scan *)

Lemma nat_le_pow30 n : (Z.of_nat n <= 2 ^ 30)%Z -> n <= 2 ^ 30.
Proof.
  intros H. apply Nat2Z.inj_le. rewrite Nat2Z.inj_pow.
  change (Z.of_nat 2) with 2%Z. change (Z.of_nat 30) with 30%Z. done.
Qed.

(** Up to [n = 2^30] the padded length is the next power of two. *)
Lemma pad_of_exact n :
  0 < n -> (Z.of_nat n <= 2 ^ 30)%Z -> pad_of n = 2 ^ ilog2ceil n.
Proof.
  intros Hn Hfit. unfold pad_of.
  assert (ilog2ceil n <= 30) as Hk.
  { unfold ilog2ceil. apply Nat.log2_up_le_pow2; [done|].
    by apply nat_le_pow30. }
  rewrite Z.shiftl_1_l.
  assert (2 ^ Z.of_nat (ilog2ceil n) <= 2 ^ 30)%Z as Hle
    by (apply Z.pow_le_mono_r; lia).
  assert (0 < 2 ^ Z.of_nat (ilog2ceil n))%Z as Hpos
    by (apply Z.pow_pos_nonneg; lia).
  rewrite wrap32_id by (unfold int32, int_min, int_max; lia).
  apply Nat2Z.inj. rewrite Z2Nat.id by lia. rewrite Nat2Z.inj_pow. done.
Qed.

Lemma pad_of_ge n : 0 < n -> (Z.of_nat n <= 2 ^ 30)%Z -> n <= pad_of n.
Proof.
  intros H Hfit. rewrite pad_of_exact by done. unfold ilog2ceil.
  apply (Nat.log2_log2_up_spec n H).
Qed.

Lemma pad_of_fits n :
  0 < n -> (Z.of_nat n <= 2 ^ 30)%Z -> (Z.of_nat (pad_of n) <= 2 ^ 30)%Z.
Proof.
  intros Hn Hfit. rewrite pad_of_exact by done.
  assert (ilog2ceil n <= 30) as Hk.
  { unfold ilog2ceil. apply Nat.log2_up_le_pow2; [done|].
    by apply nat_le_pow30. }
  rewrite Nat2Z.inj_pow. change (Z.of_nat 2) with 2%Z.
  apply Z.pow_le_mono_r; lia.
Qed.

Lemma lookup_total_map_seq {A : Type} `{!Inhabited A} (f : nat -> A) n i :
  i < n -> map f (seq 0 n) !!! i = f i.
Proof.
  intros H. rewrite list_lookup_total_alt.
  change (map f (seq 0 n)) with (f <$> seq 0 n).
  by rewrite list_lookup_fmap, lookup_seq_lt.
Qed.

(** The arrays the allocation loop gives have the shape of the
    hierarchy. *)
Lemma alloc_levels_wf b junk first p :
  1 <= b ->
  wf_levels b p (num_scans_of (2 ^ b) (2 ^ p))
    (alloc_levels (2 ^ b) junk first (num_scans_of (2 ^ b) (2 ^ p)) 0 (2 ^ p)).
Proof.
  intros Hb.
  pose proof (alloc_levels_sizes b Hb junk first
                (num_scans_of (2 ^ b) (2 ^ p)) 0 p) as H.
  cbv zeta in H. destruct H as (H1 & H2 & H3 & H4 & H5 & H6).
  split_and!; try done. intros i Hi.
  destruct (H6 i Hi) as (E1 & E2 & E3).
  rewrite H1, H2, E1, E2, E3, length_cudaMalloc.
  rewrite !lookup_total_map_seq by done.
  unfold level_size. split_and!; try done. f_equal. lia.
Qed.

Lemma wf_levels_set_input b p K s v :
  wf_levels b p K s -> length v = level_size b p 0 ->
  wf_levels b p K
    (Levels (<[0 := v]> (dev_idata s)) (dev_odata s) (dev_buffer s)
            (array_sizes s) (grid_sizes s)).
Proof.
  intros (H1 & H2 & H3 & H4) Hv. split_and!; simpl; try done.
  { by rewrite length_insert. }
  intros i Hi. destruct (H4 i Hi) as (? & ? & ? & ? & ?).
  split_and!; try done. destruct i as [|i].
  - by rewrite list_lookup_total_insert_eq by lia.
  - by rewrite list_lookup_total_insert_ne by lia.
Qed.

(** What [dev_idata[0]] holds when the input has been copied: the input,
    then whatever the allocation held. *)
Lemma level0_input junk0 n x :
  length x = n -> 0 < n -> (Z.of_nat n <= 2 ^ 30)%Z -> Forall int32 x ->
  let in0 := cudaMemcpy (cudaMalloc junk0 (pad_of n)) x n in
  length in0 = pad_of n /\ Forall int32 in0 /\
  (forall j, j < n -> rd in0 j = rd x j) /\
  (forall j, n <= j < pad_of n -> rd in0 j = wrap32 (junk0 j)).
Proof.
  intros Hx Hn Hfit Hint. cbv zeta. unfold cudaMemcpy.
  pose proof (pad_of_ge n Hn Hfit) as Hpad.
  rewrite take_ge by lia. split_and!.
  - rewrite length_app, length_drop, length_cudaMalloc. lia.
  - apply Forall_app. split.
    + done.
    + apply Forall_drop. unfold cudaMalloc. apply Forall_forall.
      intros v Hv. apply list_elem_of_In, in_map_iff in Hv as (k & <- & _).
      apply wrap32_int32.
  - intros j Hj. by rewrite rd_app_l by lia.
  - intros j Hj. rewrite rd_app_r by lia. unfold rd.
    rewrite lookup_drop. replace (n + (j - length x)) with j by lia.
    fold (rd (cudaMalloc junk0 (pad_of n)) j). unfold cudaMalloc.
    by rewrite rd_map_seq by lia.
Qed.

Lemma alloc_levels_input0 b junk first p :
  1 <= b ->
  dev_idata
    (alloc_levels (2 ^ b) junk first (num_scans_of (2 ^ b) (2 ^ p)) 0 (2 ^ p))
    !!! 0
  = cudaMalloc (junk first) (2 ^ p).
Proof.
  intros Hb.
  pose proof (alloc_levels_sizes b Hb junk first
                (num_scans_of (2 ^ b) (2 ^ p)) 0 p) as H.
  cbv zeta in H. destruct H as (_ & _ & _ & _ & _ & H6).
  destruct (num_scans_spec b Hb p) as (HK & _).
  destruct (H6 0 ltac:(lia)) as (-> & _). f_equal; [f_equal; lia|f_equal; lia].
Qed.

(** The state [scan] starts the kernels from. *)
Lemma scan_init_wf b junk n x :
  1 <= b -> 0 < n -> (Z.of_nat n <= 2 ^ 30)%Z -> length x = n ->
  Forall int32 x ->
  wf_levels b (ilog2ceil n) (num_scans_of (2 ^ b) (pad_of n))
            (scan_init (2 ^ b) junk n x) /\
  dev_idata (scan_init (2 ^ b) junk n x) !!! 0
  = cudaMemcpy (cudaMalloc (junk 0) (pad_of n)) x n.
Proof.
  intros Hb Hn Hfit Hx Hint. unfold scan_init.
  destruct (level0_input (junk 0) n x Hx Hn Hfit Hint) as (Hl & _).
  cbv zeta. rewrite (pad_of_exact n Hn Hfit) in *.
  rewrite alloc_levels_input0 by done.
  pose proof (alloc_levels_wf b junk 0 (ilog2ceil n) Hb) as Hwf.
  split.
  - apply wf_levels_set_input; [done|].
    rewrite Hl. unfold level_size. f_equal. lia.
  - simpl. apply list_lookup_total_insert_eq.
    destruct Hwf as (-> & _). destruct (num_scans_spec b Hb (ilog2ceil n)).
    lia.
Qed.

Lemma exclusive_scan_prefix in0 x n :
  length x = n -> n <= length in0 ->
  (forall j, j < n -> rd in0 j = rd x j) ->
  take n (exclusive_scan in0) = exclusive_scan x.
Proof.
  intros Hx Hn H. apply list_eq_rd.
  { rewrite length_take, !length_exclusive_scan. lia. }
  intros j. rewrite length_take, length_exclusive_scan. intros Hj.
  rewrite rd_take, !rd_exclusive_scan by lia. f_equal.
  apply psum_ext. intros i Hi. apply H. lia.
Qed.

(** [scan] returns the exclusive prefix sums of its input, whatever the
    block size and the content of fresh device memory. *)
Lemma scan_is_exclusive_scan b junk n x :
  1 <= b -> (0 < n <= 2 ^ 30)%Z -> length x = Z.to_nat n -> Forall int32 x ->
  scan (2 ^ b) junk n x = exclusive_scan x.
Proof.
  intros Hb Hn Hx Hint. unfold scan.
  destruct (n <=? 0)%Z eqn:E; [lia|]. clear E.
  assert (0 < Z.to_nat n) as Hn' by lia.
  assert (Z.of_nat (Z.to_nat n) <= 2 ^ 30)%Z as Hfit by lia.
  destruct (scan_init_wf b junk (Z.to_nat n) x Hb Hn' Hfit Hx Hint)
    as (Hwf & H0).
  destruct (level0_input (junk 0) (Z.to_nat n) x Hx Hn' Hfit Hint)
    as (Hl & Hi32 & Hlow & _).
  pose proof (pad_of_ge _ Hn' Hfit) as Hpad.
  unfold scan_levels. rewrite (pad_of_exact _ Hn' Hfit) in *.
  rewrite (levels_scan b (ilog2ceil (Z.to_nat n)) _ Hb Hl Hi32 _ Hwf H0).
  apply exclusive_scan_prefix; [done| |done].
  by rewrite Hl.
Qed.

(** * compact *)

Lemma cudaMemset0_all dst cnt :
  length dst = cnt -> cudaMemset0 dst cnt = replicate cnt 0%Z.
Proof.
  intros H. unfold cudaMemset0.
  rewrite drop_ge, app_nil_r by lia. f_equal. lia.
Qed.

Lemma padded_length n_pad x :
  length x <= n_pad -> length (padded n_pad x) = n_pad.
Proof.
  intros H. unfold padded. rewrite length_app, length_replicate. lia.
Qed.

Lemma rd_padded_lt n_pad x j : j < length x -> rd (padded n_pad x) j = rd x j.
Proof. intros H. unfold padded. by rewrite rd_app_l. Qed.

Lemma rd_padded_ge n_pad x j : length x <= j -> rd (padded n_pad x) j = 0%Z.
Proof.
  intros H. unfold padded. rewrite rd_app_r by done. unfold rd.
  destruct (replicate _ _ !! _) as [v|] eqn:E; [|done].
  by apply lookup_replicate in E as [-> _].
Qed.

Lemma mask_of_int32 m x : Forall int32 (mask_of m x).
Proof.
  unfold mask_of. apply Forall_forall. intros v Hv.
  apply list_elem_of_In, in_map_iff in Hv as (k & <- & _).
  unfold int32, int_min, int_max. case_match; lia.
Qed.

Lemma length_mask_of m x : length (mask_of m x) = m.
Proof. apply length_map_seq. Qed.

Lemma rd_mask_of m x j :
  j < m -> rd (mask_of m x) j = if (rd x j =? 0)%Z then 0%Z else 1%Z.
Proof. intros H. unfold mask_of. by rewrite rd_map_seq. Qed.

(** The arrays of [compact], one by one. *)
Lemma compact_run_parts b junk n x :
  1 <= b -> 0 < n -> (Z.of_nat n <= 2 ^ 30)%Z -> length x = n ->
  let c := compact_run (2 ^ b) junk n x in
  c_idata c = padded (pad_of n) x /\
  c_bools c = mask_of (pad_of n) (padded (pad_of n) x) /\
  c_level0 c = c_bools c /\
  c_indices c = exclusive_scan (c_bools c) /\
  c_odata c
  = par_for (launch (2 ^ (ilog2ceil n - b)) (2 ^ b))
      (scatter_thread (pad_of n) (c_idata c) (c_bools c) (c_indices c))
      (cudaMalloc (junk 1) (pad_of n)) /\
  c_len c = add32 (rd (c_indices c) (n - 1)) (rd (c_bools c) (n - 1)).
Proof.
  intros Hb Hn Hfit Hx. cbv zeta. unfold compact_run.
  pose proof (pad_of_ge n Hn Hfit) as Hpad.
  set (p := ilog2ceil n).
  assert (pad_of n = 2 ^ p) as Ep by (by apply pad_of_exact).
  rewrite Ep in Hpad.
  pose proof (alloc_levels_wf b junk 3 p Hb) as Hwf.
  pose proof (alloc_levels_input0 b junk 3 p Hb) as Hin.
  set (K := num_scans_of (2 ^ b) (2 ^ p)) in *.
  rewrite Ep. fold K.
  set (s := alloc_levels (2 ^ b) junk 3 K 0 (2 ^ p)) in *.
  assert (cudaMemcpy (cudaMemset0 (cudaMalloc (junk 0) (2 ^ p)) (2 ^ p)) x n
          = padded (2 ^ p) x) as E1.
  { rewrite cudaMemset0_all by apply length_cudaMalloc.
    unfold cudaMemcpy, padded. rewrite take_ge by lia. f_equal.
    rewrite drop_replicate. by rewrite Hx. }
  rewrite E1.
  destruct (num_scans_spec b Hb p) as (HK & _). fold K in HK.
  destruct Hwf as (W1 & W2 & W3 & W4).
  destruct (W4 0 ltac:(lia)) as (_ & Hg & Hi0 & _).
  assert (grid_sizes s !!! 0 = 2 ^ (p - b)) as Hg'.
  { rewrite Hg. unfold level_size. f_equal. lia. }
  rewrite Hg'.
  rewrite kernMapToBoolean_spec;
    [|apply length_cudaMalloc|apply level_cover].
  fold (mask_of (2 ^ p) (padded (2 ^ p) x)).
  set (bools := mask_of (2 ^ p) (padded (2 ^ p) x)).
  assert (length bools = 2 ^ p) as Hlb by apply length_mask_of.
  rewrite cudaMemcpy_all;
    [|done|rewrite Hi0; unfold level_size; f_equal; lia].
  rewrite (levels_scan b p bools Hb Hlb (mask_of_int32 _ _)).
  - simpl. split_and!; try done.
    rewrite !rd_take by lia. done.
  - apply wf_levels_set_input; [by split_and!|].
    rewrite Hlb. unfold level_size. f_equal. lia.
  - simpl. apply list_lookup_total_insert_eq. lia.
Qed.

(** ** Counting kept elements *)

Lemma count_nonzero_app x y :
  count_nonzero (x ++ y) = count_nonzero x + count_nonzero y.
Proof. unfold count_nonzero. by rewrite filter_app, length_app. Qed.

Lemma filter_replicate_0 m : filter (fun v => v <> 0%Z) (replicate m 0%Z) = [].
Proof.
  induction m as [|m IH]; [done|]. simpl.
  rewrite filter_cons_False by (intros H; by apply H). done.
Qed.

Lemma filter_padded n_pad x :
  filter (fun v => v <> 0%Z) (padded n_pad x) = filter (fun v => v <> 0%Z) x.
Proof.
  unfold padded. by rewrite filter_app, filter_replicate_0, app_nil_r.
Qed.

Lemma take_S_rd (x : list Z) k :
  k < length x -> take (S k) x = take k x ++ [rd x k].
Proof.
  intros H. destruct (lookup_lt_is_Some_2 x k H) as [v Hv].
  rewrite (take_S_r _ _ _ Hv). unfold rd. by rewrite Hv.
Qed.

Lemma kept_before_S x k :
  kept_before x (S k)
  = kept_before x k + (if (rd x k =? 0)%Z then 0 else 1).
Proof.
  unfold kept_before. destruct (decide (k < length x)) as [H|H].
  - rewrite take_S_rd, count_nonzero_app by done. f_equal.
    unfold count_nonzero. destruct (rd x k =? 0)%Z eqn:E.
    + apply Z.eqb_eq in E. rewrite filter_cons_False; [done|]. tauto.
    + apply Z.eqb_neq in E. by rewrite filter_cons_True.
  - rewrite !take_ge by lia. rewrite rd_ge by lia. simpl. lia.
Qed.

Lemma kept_before_le x k : kept_before x k <= k.
Proof.
  induction k as [|k IH]; [done|]. rewrite kept_before_S. case_match; lia.
Qed.

Lemma kept_before_mono x k k' : k <= k' -> kept_before x k <= kept_before x k'.
Proof.
  induction 1 as [|k' Hk IH]; [done|]. rewrite kept_before_S. lia.
Qed.

Lemma kept_before_all x k : length x <= k -> kept_before x k = count_nonzero x.
Proof. intros H. unfold kept_before. by rewrite take_ge. Qed.

Lemma kept_before_padded n_pad x k :
  kept_before (padded n_pad x) k = kept_before x k.
Proof.
  unfold kept_before, padded. rewrite take_app, count_nonzero_app.
  unfold count_nonzero at 2. rewrite take_replicate, filter_replicate_0.
  simpl. lia.
Qed.

Lemma count_nonzero_le x : count_nonzero x <= length x.
Proof. rewrite <- (kept_before_all x (length x)) by done. apply kept_before_le. Qed.

(** The prefix sums of the mask count the kept elements. *)
Lemma psum_mask m x k :
  k <= m -> psum (mask_of m x) 0 k = Z.of_nat (kept_before x k).
Proof.
  induction k as [|k IH]; intros Hk; [done|].
  rewrite psum_S, IH, kept_before_S by lia. simpl.
  rewrite rd_mask_of by lia. case_match; lia.
Qed.

Lemma rd_indices m x k :
  k < m -> (Z.of_nat (count_nonzero x) <= int_max)%Z ->
  rd (exclusive_scan (mask_of m x)) k = Z.of_nat (kept_before x k).
Proof.
  intros Hk Hmax. rewrite rd_exclusive_scan by (by rewrite length_mask_of).
  rewrite psum_mask by lia. apply wrap32_id.
  pose proof (kept_before_mono x k (k + length x) ltac:(lia)) as Hle.
  rewrite (kept_before_all x (k + length x)) in Hle by lia.
  unfold int32, int_min, int_max in *. lia.
Qed.

(** ** The scatter *)

Section Scatter.

Variables (n_pad : nat) (xp bools indices od0 : list Z).
Hypothesis xp_length : length xp = n_pad.
Hypothesis od0_length : length od0 = n_pad.
Hypothesis bools_mask :
  forall id, id < n_pad ->
    rd bools id = if (rd xp id =? 0)%Z then 0%Z else 1%Z.
Hypothesis indices_count :
  forall id, id < n_pad -> rd indices id = Z.of_nat (kept_before xp id).

Lemma scatter_thread_kept id od :
  id < n_pad -> rd xp id <> 0%Z ->
  scatter_thread n_pad xp bools indices id od
  = <[kept_before xp id := rd xp id]> od.
Proof.
  intros Hid Hv. unfold scatter_thread.
  rewrite bools_mask, indices_count by done.
  apply Nat.ltb_lt in Hid as ->. apply Z.eqb_neq in Hv as ->. simpl.
  replace (0 <=? Z.of_nat (kept_before xp id))%Z with true
    by (symmetry; apply Z.leb_le; lia).
  by rewrite Nat2Z.id.
Qed.

Lemma scatter_thread_dropped id od :
  n_pad <= id \/ rd xp id = 0%Z ->
  scatter_thread n_pad xp bools indices id od = od.
Proof.
  intros H. unfold scatter_thread.
  destruct (decide (id < n_pad)) as [Hid|Hid].
  - destruct H as [?|Hv]; [lia|].
    rewrite bools_mask by done. rewrite Hv. simpl.
    by rewrite andb_false_r.
  - replace (id <? n_pad) with false; [done|].
    symmetry. apply Nat.ltb_ge. lia.
Qed.

(** After the first [T] threads, the kept elements among the first [T]
    slots of the input are at the front of the output, in order, and the
    rest of the output is untouched. *)
Lemma scatter_prefix T :
  let od := par_for (seq 0 T) (scatter_thread n_pad xp bools indices) od0 in
  length od = n_pad /\
  take (kept_before xp T) od = filter (fun v => v <> 0%Z) (take T xp) /\
  drop (kept_before xp T) od = drop (kept_before xp T) od0.
Proof.
  cbv zeta. induction T as [|T (IH1 & IH2 & IH3)].
  { simpl. split_and!; done. }
  rewrite par_for_snoc, kept_before_S.
  set (od := par_for (seq 0 T) (scatter_thread n_pad xp bools indices) od0)
    in *.
  destruct (decide (T < n_pad /\ rd xp T <> 0%Z)) as [[HT Hv]|Hno].
  - rewrite scatter_thread_kept by done.
    apply Z.eqb_neq in Hv as Hv'. rewrite Hv'.
    pose proof (kept_before_le xp T) as Hc.
    rewrite length_insert. split_and!; [done| |].
    + rewrite Nat.add_1_r, take_S_rd by (rewrite length_insert; lia).
      rewrite take_insert_ge, IH2 by lia.
      rewrite rd_insert, decide_True by (split; [done|lia]).
      rewrite (take_S_rd xp T) by lia. rewrite filter_app.
      by rewrite (filter_cons_True _ (rd xp T)) by done.
    + rewrite drop_insert_lt by lia.
      rewrite <- !(drop_drop _ 1 (kept_before xp T)). by rewrite IH3.
  - assert (n_pad <= T \/ rd xp T = 0%Z) as Hd.
    { destruct (decide (T < n_pad)); [|lia].
      destruct (decide (rd xp T = 0%Z)); [by right|tauto]. }
    rewrite scatter_thread_dropped by done.
    assert (rd xp T = 0%Z) as E.
    { destruct Hd as [?|?]; [|done]. apply rd_ge. lia. }
    rewrite E. simpl. rewrite Nat.add_0_r. split_and!; try done.
    rewrite IH2. destruct (decide (T < n_pad)).
    + rewrite (take_S_rd xp T) by lia. rewrite filter_app, E.
      rewrite (filter_cons_False _ 0%Z) by tauto. by rewrite app_nil_r.
    + by rewrite !take_ge by lia.
Qed.

End Scatter.

(** ** The count and the destinations *)

Section CompactRun.

Variables (b : nat) (junk : nat -> nat -> Z) (n : nat) (x : list Z).
Hypothesis b_pos : 1 <= b.
Hypothesis n_pos : 0 < n.
Hypothesis n_fits : (Z.of_nat n <= 2 ^ 30)%Z.
Hypothesis x_length : length x = n.

Lemma count_fits : (Z.of_nat (count_nonzero (padded (pad_of n) x)) <= int_max)%Z.
Proof.
  unfold count_nonzero. rewrite filter_padded.
  pose proof (count_nonzero_le x) as H. unfold count_nonzero in H.
  unfold int_max. lia.
Qed.

Lemma compact_run_indices id :
  id < pad_of n ->
  rd (c_indices (compact_run (2 ^ b) junk n x)) id
  = Z.of_nat (kept_before x id).
Proof.
  intros Hid.
  destruct (compact_run_parts b junk n x b_pos n_pos n_fits x_length)
    as (_ & Hb & _ & -> & _). rewrite Hb.
  rewrite rd_indices by (done || apply count_fits).
  by rewrite kept_before_padded.
Qed.

Lemma compact_run_bools id :
  id < pad_of n ->
  rd (c_bools (compact_run (2 ^ b) junk n x)) id
  = if (rd (padded (pad_of n) x) id =? 0)%Z then 0%Z else 1%Z.
Proof.
  intros Hid.
  destruct (compact_run_parts b junk n x b_pos n_pos n_fits x_length)
    as (_ & -> & _). by apply rd_mask_of.
Qed.

Lemma compact_run_len :
  c_len (compact_run (2 ^ b) junk n x)
  = (rd (c_indices (compact_run (2 ^ b) junk n x)) (n - 1)
     + rd (c_bools (compact_run (2 ^ b) junk n x)) (n - 1))%Z /\
  c_len (compact_run (2 ^ b) junk n x) = Z.of_nat (count_nonzero x).
Proof.
  pose proof (pad_of_ge n n_pos n_fits) as Hpad.
  destruct (compact_run_parts b junk n x b_pos n_pos n_fits x_length)
    as (_ & _ & _ & _ & _ & ->).
  rewrite compact_run_indices, compact_run_bools by lia.
  rewrite rd_padded_lt by lia.
  assert (Z.of_nat (kept_before x (n - 1))
          + (if (rd x (n - 1) =? 0)%Z then 0 else 1)
          = Z.of_nat (count_nonzero x))%Z as E.
  { rewrite <- (kept_before_all x n) by lia.
    replace n with (S (n - 1)) at 3 by lia.
    rewrite kept_before_S. case_match; lia. }
  assert (wrap32 (Z.of_nat (count_nonzero x)) = Z.of_nat (count_nonzero x))
    as Hw.
  { apply wrap32_id. pose proof (count_nonzero_le x).
    unfold int32, int_min, int_max in *. lia. }
  unfold add32. rewrite E, Hw. done.
Qed.

Lemma compact_run_odata :
  length (c_odata (compact_run (2 ^ b) junk n x)) = pad_of n /\
  take (count_nonzero x) (c_odata (compact_run (2 ^ b) junk n x))
  = filter (fun v => v <> 0%Z) x.
Proof.
  pose proof (pad_of_ge n n_pos n_fits) as Hpad.
  destruct (compact_run_parts b junk n x b_pos n_pos n_fits x_length)
    as (Hi & Hb & _ & Hx & -> & _).
  assert (length (padded (pad_of n) x) = pad_of n) as Hlp
    by (apply padded_length; lia).
  pose proof (scatter_prefix (pad_of n)
                (c_idata (compact_run (2 ^ b) junk n x))
                (c_bools (compact_run (2 ^ b) junk n x))
                (c_indices (compact_run (2 ^ b) junk n x))
                (cudaMalloc (junk 1) (pad_of n))) as H.
  rewrite Hi in *.
  specialize (H Hlp (length_cudaMalloc _ _)).
  specialize (H compact_run_bools).
  assert (forall id, id < pad_of n ->
            rd (c_indices (compact_run (2 ^ b) junk n x)) id
            = Z.of_nat (kept_before (padded (pad_of n) x) id)) as Hidx.
  { intros id Hid. by rewrite compact_run_indices, kept_before_padded. }
  specialize (H Hidx (2 ^ (ilog2ceil n - b) * 2 ^ b)). cbv zeta in H.
  destruct H as (H1 & H2 & _). unfold launch. split; [done|].
  pose proof (level_cover b (ilog2ceil n)) as Hc.
  rewrite <- (pad_of_exact n n_pos n_fits) in Hc.
  rewrite kept_before_all in H2 by lia.
  rewrite (take_ge (padded (pad_of n) x)) in H2 by lia.
  unfold count_nonzero in H2 at 1. rewrite !filter_padded in H2. done.
Qed.

End CompactRun.

(** * The properties of the specification *)





Lemma num_scans_many b p :
  1 <= b -> b < p -> 2 <= num_scans_of (2 ^ b) (2 ^ p).
Proof.
  intros Hb Hp. destruct (num_scans_spec b Hb p) as (H1 & H2 & _).
  destruct (decide (num_scans_of (2 ^ b) (2 ^ p) = 1)) as [E|E]; [|lia].
  rewrite E in H2. simpl in H2. lia.
Qed.

Lemma num_scans_one b p :
  1 <= b -> p <= b -> num_scans_of (2 ^ b) (2 ^ p) = 1.
Proof.
  intros Hb Hp. destruct (num_scans_spec b Hb p) as (H1 & _ & H3).
  destruct (decide (num_scans_of (2 ^ b) (2 ^ p) = 1)) as [E|E]; [done|].
  specialize (H3 0 ltac:(lia)). lia.
Qed.

(** C3. When n (up to 2^30) is larger than one group of [2^b] threads,
    the driver builds at least two levels, and its result is the same,
    element for element, as that of the driver run with a group capacity
    [2^b'] that holds the whole padded array (a single level: one
    in-group scan); the content of fresh device memory plays no part. *)
Theorem scan_levels_agree (b b' : nat) (junk junk' : nat -> nat -> Z)
    (n : Z) (x : list Z) :
  1 <= b -> 1 <= b' -> (0 < n <= 2 ^ 30)%Z -> Z.of_nat (length x) = n ->
  Forall int32 x ->
  2 ^ b < length x -> pad_of (length x) <= 2 ^ b' ->
  2 <= num_scans_of (2 ^ b) (pad_of (length x)) /\
  num_scans_of (2 ^ b') (pad_of (length x)) = 1 /\
  scan (2 ^ b) junk n x = scan (2 ^ b') junk' n x.
Proof.
  intros Hb Hb' Hn Hx Hint Hbig Hfit.
  rewrite pad_of_exact in * by lia. split_and!.
  - apply num_scans_many; [done|]. unfold ilog2ceil.
    apply Nat.log2_up_lt_pow2; lia.
  - apply num_scans_one; [done|].
    apply Nat.pow_le_mono_r_iff in Hfit; lia.
  - rewrite !scan_is_exclusive_scan by (done || lia). done.
Qed.

Lemma scan_levels_agree_witness :
  scan (2 ^ 1) (fun _ _ => 77%Z) 5 [1; 2; 3; 4; 5]%Z
  = scan (2 ^ 3) (fun _ _ => 5%Z) 5 [1; 2; 3; 4; 5]%Z.
Proof.
  apply (scan_levels_agree 1 3 (fun _ _ => 77%Z) (fun _ _ => 5%Z) 5
           [1; 2; 3; 4; 5]%Z).
  - lia.
  - lia.
  - lia.
  - reflexivity.
  - repeat constructor; unfold int32, int_min, int_max; lia.
  - simpl. lia.
  - vm_compute. lia.
Defined.

(** C6. For n > 0 (up to 2^30) that is not a power of two, scan(n, x) is
    the first n elements of the scan of x zero-extended to the padded
    length. *)
Theorem scan_zero_padding (b : nat) (junk junk' : nat -> nat -> Z) (n : Z)
    (x : list Z) :
  1 <= b -> (0 < n <= 2 ^ 30)%Z -> Z.of_nat (length x) = n ->
  Forall int32 x -> (forall k, length x <> 2 ^ k) ->
  scan (2 ^ b) junk n x
  = take (length x)
      (scan (2 ^ b) junk' (Z.of_nat (pad_of (length x)))
            (padded (pad_of (length x)) x)).
Proof.
  intros Hb Hn Hx Hint _.
  pose proof (pad_of_ge (length x) ltac:(lia) ltac:(lia)) as Hpad.
  pose proof (pad_of_fits (length x) ltac:(lia) ltac:(lia)) as Hpfit.
  assert (Forall int32 (padded (pad_of (length x)) x)) as Hint'.
  { unfold padded. apply Forall_app. split; [done|].
    apply Forall_forall. intros v Hv%elem_of_replicate. destruct Hv as [-> _].
    unfold int32, int_min, int_max. lia. }
  rewrite (scan_is_exclusive_scan b junk n x) by (done || lia).
  rewrite (scan_is_exclusive_scan b junk' _ (padded (pad_of (length x)) x));
    [|done|lia|rewrite padded_length by done; lia|done].
  symmetry. apply exclusive_scan_prefix; [done| |].
  - by rewrite padded_length.
  - intros j Hj. by apply rd_padded_lt.
Qed.

Lemma scan_zero_padding_witness :
  scan (2 ^ 1) (fun _ _ => 77%Z) 3 [1; 2; 3]%Z
  = take 3 (scan (2 ^ 1) (fun _ _ => 5%Z) 4 [1; 2; 3; 0]%Z).
Proof.
  apply (scan_zero_padding 1 (fun _ _ => 77%Z) (fun _ _ => 5%Z) 3
           [1; 2; 3]%Z).
  - lia.
  - lia.
  - reflexivity.
  - repeat constructor; unfold int32, int_min, int_max; lia.
  - intros [|[|[|k]]]; simpl; lia.
Defined.

(** C8. For n <= 0, compact returns n itself as the count and writes
    nothing. *)
Theorem compact_nonpositive (block_size : nat) (junk : nat -> nat -> Z)
    (n : Z) (x : list Z) :
  (n <= 0)%Z -> compact block_size junk n x = ([], n).
Proof.
  intros Hn. unfold compact.
  destruct (n <=? 0)%Z eqn:E; [done|]. apply Z.leb_gt in E. lia.
Qed.

Lemma compact_nonpositive_witness :
  compact 4 (fun _ _ => 77%Z) (-3) [1; 2]%Z = ([], (-3)%Z).
Proof. apply compact_nonpositive. lia. Defined.







Lemma upward_S bs K k s :
  upward bs K (S k) s = up_level bs K k (upward bs K k s).
Proof. unfold upward. by rewrite seq_S, fold_left_app. Qed.

(** The last slot of group [g] at a level, and what the in-group scans
    hold there. *)
Lemma group_last_slot b q g :
  g < 2 ^ (q - b) ->
  (min ((g + 1) * 2 ^ b) (2 ^ q) - 1) mod 2 ^ min q b = 2 ^ min q b - 1 /\
  min ((g + 1) * 2 ^ b) (2 ^ q) - 1 - (2 ^ min q b - 1) = g * 2 ^ b /\
  min ((g + 1) * 2 ^ b) (2 ^ q) - 1 < 2 ^ q.
Proof.
  intros Hg. pose proof (pow2_pos b) as Hb. pose proof (pow2_pos q) as Hq.
  destruct (decide (q <= b)) as [H|H].
  - replace (q - b) with 0 in Hg by lia. simpl in Hg.
    assert (g = 0) as -> by lia. replace (min q b) with q by lia.
    pose proof (pow2_le q b H).
    replace (min ((0 + 1) * 2 ^ b) (2 ^ q)) with (2 ^ q) by lia.
    rewrite Nat.mod_small by lia. lia.
  - replace (min q b) with b by lia.
    pose proof (pow2_split b q ltac:(lia)) as E.
    assert ((g + 1) * 2 ^ b <= 2 ^ q) as Hle by (rewrite E; nia).
    replace (min ((g + 1) * 2 ^ b) (2 ^ q)) with ((g + 1) * 2 ^ b) by lia.
    split_and!; [|lia|lia].
    replace ((g + 1) * 2 ^ b - 1) with ((2 ^ b - 1) + g * 2 ^ b) by lia.
    rewrite Nat.Div0.mod_add. apply Nat.mod_small. lia.
Qed.

(** C4. At every level i of scan (n up to 2^30) and for every group g,
    when the in-group scan of the level is done, the group's last output
    slot holds the group's total: the exclusive-scan value at that slot
    plus the level's input there, which is the sum of the group's input.
    It is still there when the upward pass ends, and it is the element g
    of the next level's input. *)
Theorem group_totals_feed_next_level (b : nat) (junk : nat -> nat -> Z)
    (n : nat) (x : list Z) (i g : nat) :
  let K := num_scans_of (2 ^ b) (pad_of n) in
  let before := upward (2 ^ b) K i (scan_init (2 ^ b) junk n x) in
  let after := upward (2 ^ b) K (S i) (scan_init (2 ^ b) junk n x) in
  let finished := upward (2 ^ b) K K (scan_init (2 ^ b) junk n x) in
  let input := dev_idata before !!! i in
  let size := array_sizes before !!! i in
  let last := min ((g + 1) * 2 ^ b) size - 1 in
  let scanned :=
    kernScanInclusive (grid_sizes before !!! i) (2 ^ b) size
                      (dev_buffer before !!! i) input in
  1 <= b -> 0 < n -> (Z.of_nat n <= 2 ^ 30)%Z -> length x = n ->
  Forall int32 x ->
  i < K -> g < grid_sizes before !!! i ->
  dev_buffer after !!! i = scanned.1 /\
  dev_buffer finished !!! i = scanned.1 /\
  rd scanned.1 last = add32 (rd scanned.2 last) (rd input last) /\
  rd scanned.1 last = wrap32 (psum input (g * 2 ^ b) (last + 1 - g * 2 ^ b)) /\
  (S i < K -> rd (dev_idata after !!! (S i)) g = rd scanned.1 last).
Proof.
  cbv zeta. intros Hb Hn Hfit Hx Hint.
  destruct (scan_init_wf b junk n x Hb Hn Hfit Hx Hint) as (Hwf & H0).
  destruct (level0_input (junk 0) n x Hx Hn Hfit Hint) as (Hl & Hi32 & _).
  rewrite (pad_of_exact n Hn Hfit) in *. set (p := ilog2ceil n) in *.
  set (K := num_scans_of (2 ^ b) (2 ^ p)) in *.
  set (in0 := cudaMemcpy (cudaMalloc (junk 0) (2 ^ p)) x n) in *.
  set (s0 := scan_init (2 ^ b) junk n x) in *.
  intros Hi.
  assert (up_done b p K in0 0 s0) as Hup0.
  { split; [done|split]; [intros k Hk; lia|done]. }
  pose proof (upward_done b p in0 Hb Hl Hi32 i s0 ltac:(fold K; lia) Hup0)
    as Hbefore.
  pose proof (upward_done b p in0 Hb Hl Hi32 (S i) s0 ltac:(fold K; lia) Hup0)
    as Hafter.
  pose proof (upward_done b p in0 Hb Hl Hi32 K s0 ltac:(fold K; lia) Hup0)
    as Hfin.
  fold K in Hbefore, Hafter, Hfin.
  destruct Hbefore as ((_ & _ & _ & Hwfb) & _ & Hin).
  destruct (Hwfb i Hi) as (Hsz & Hgr & _ & _ & Hbuf).
  specialize (Hin Hi).
  pose proof (level_input_length b p in0 Hb Hl i Hi) as Hlen.
  rewrite Hsz, Hgr, Hin. intros Hg.
  assert (kernScanInclusive (level_size b p (S i)) (2 ^ b) (level_size b p i)
            (dev_buffer (upward (2 ^ b) K i s0) !!! i)
            (level_input (2 ^ b) i in0)
          = (block_inclusive (level_block b p i) (level_input (2 ^ b) i in0),
             block_exclusive (level_block b p i) (level_input (2 ^ b) i in0)))
    as Hk.
  { unfold level_size. replace (p - S i * b) with (p - i * b - b) by lia.
    apply kernScanInclusive_level;
      [apply level_input_int32; done|done|by rewrite Hbuf]. }
  rewrite !Hk. cbn [fst snd].
  assert (g < 2 ^ (p - i * b - b)) as Hg'.
  { unfold level_size in Hg. by replace (p - S i * b) with (p - i * b - b)
      in Hg by lia. }
  destruct (group_last_slot b (p - i * b) g Hg') as (Hmod & Hbase & Hlt).
  fold (level_block b p i) in Hmod, Hbase.
  fold (level_size b p i) in Hmod, Hbase, Hlt.
  set (last := min ((g + 1) * 2 ^ b) (level_size b p i) - 1) in *.
  set (input := level_input (2 ^ b) i in0) in *.
  pose proof (mod_le last (level_block b p i)) as Hmle.
  assert (0 < level_block b p i) as Hlb by apply pow2_pos.
  assert (rd (block_inclusive (level_block b p i) input) last
          = wrap32 (psum input (g * 2 ^ b) (last + 1 - g * 2 ^ b))) as Hincl.
  { rewrite rd_block_inclusive by (rewrite Hlen; done).
    rewrite Hmod, Hbase. f_equal. f_equal. lia. }
  split_and!.
  - destruct Hafter as (_ & Hdone & _). by destruct (Hdone i ltac:(lia)).
  - destruct Hfin as (_ & Hdone & _). by destruct (Hdone i Hi).
  - rewrite Hincl. unfold block_exclusive.
    rewrite rd_map_seq by (rewrite Hlen; done).
    rewrite Hmod, Hbase. unfold add32. rewrite wrap32_add_l. f_equal.
    replace (last + 1 - g * 2 ^ b)
      with (S (level_block b p i - 1)) by lia.
    rewrite psum_S. f_equal. f_equal. lia.
  - done.
  - intros Hnext. destruct Hafter as (_ & _ & Hnxt).
    rewrite (Hnxt Hnext), Hincl. simpl level_input. fold input.
    destruct (num_scans_spec b Hb p) as (_ & _ & Hlow).
    specialize (Hlow i ltac:(fold K; lia)).
    rewrite rd_block_totals
      by (rewrite Hlen; unfold level_size; rewrite pow2_div by lia; done).
    f_equal. f_equal. unfold level_block in *.
    replace (min (p - i * b) b) with b in * by lia. lia.
Qed.

Lemma group_totals_feed_next_level_witness :
  rd (dev_idata (upward (2 ^ 1) (num_scans_of (2 ^ 1) (pad_of 4)) 1
                   (scan_init (2 ^ 1) (fun _ _ => 77%Z) 4 [1; 2; 3; 4]%Z))
        !!! 1) 1
  = 7%Z.
Proof.
  destruct (group_totals_feed_next_level 1 (fun _ _ => 77%Z) 4
              [1; 2; 3; 4]%Z 0 1) as (_ & _ & _ & _ & H).
  - lia.
  - lia.
  - lia.
  - reflexivity.
  - repeat constructor; unfold int32, int_min, int_max; lia.
  - vm_compute. lia.
  - vm_compute. lia.
  - rewrite H by (vm_compute; lia). vm_compute. reflexivity.
Defined.

(** C7 (what the code does). [scan] copies the n input elements into a
    fresh [dev_idata[0]] and leaves the slots from n to the padded length
    as the allocation gave them: here slot 3 holds 7, not 0. *)
Theorem scan_level0_pad_not_zeroed :
  dev_idata (scan_init (2 ^ 1) (fun _ _ => 7%Z) 3 [1; 2; 3]%Z) !!! 0
  = [1; 2; 3; 7]%Z.
Proof. vm_compute. reflexivity. Qed.

(** In general the pad of level 0 of [scan] is the content of the fresh
    array, while [compact] scans the mask of its zeroed copy. *)
Lemma scan_pad_is_junk b junk n x j :
  1 <= b -> 0 < n -> (Z.of_nat n <= 2 ^ 30)%Z -> length x = n ->
  Forall int32 x -> n <= j < pad_of n ->
  rd (dev_idata (scan_init (2 ^ b) junk n x) !!! 0) j = wrap32 (junk 0 j).
Proof.
  intros Hb Hn Hfit Hx Hint Hj.
  destruct (scan_init_wf b junk n x Hb Hn Hfit Hx Hint) as (_ & ->).
  by apply level0_input.
Qed.

Lemma compact_pad_is_zero b junk n x j :
  1 <= b -> 0 < n -> (Z.of_nat n <= 2 ^ 30)%Z -> length x = n ->
  n <= j < pad_of n ->
  rd (c_level0 (compact_run (2 ^ b) junk n x)) j = 0%Z.
Proof.
  intros Hb Hn Hfit Hx Hj.
  destruct (compact_run_parts b junk n x Hb Hn Hfit Hx)
    as (_ & Hbools & -> & _).
  rewrite Hbools, rd_mask_of by lia. by rewrite rd_padded_ge by lia.
Qed.

(** * Beyond [n = 2^30]

    [1 << ilog2ceil(n)] is computed on [int]. For [2^30 < n] the shift is
    by 31 and the result is negative. The source then asks [cudaMalloc]
    for a negative number of elements; the embedding takes that as an
    array without slots, so no thread passes [id < n] and the drivers
    have nothing to copy back. *)

















(** * Further properties of the kernel *)

(** A phase over any list of distinct threads: a slot ends with the value
    its owner computes from the array as the phase began. *)
Lemma par_for_owner_list (body : nat -> list Z -> list Z) (owner : nat -> nat)
    (l : list nat) (m : list Z) :
  (forall id m, length (body id m) = length m) ->
  (forall id m j, owner j <> id -> rd (body id m) j = rd m j) ->
  (forall id m m', length m = length m' ->
     (forall j, owner j = id -> rd m j = rd m' j) ->
     forall j, owner j = id -> rd (body id m) j = rd (body id m') j) ->
  NoDup l ->
  length (par_for l body m) = length m /\
  forall j, rd (par_for l body m) j
            = if decide (owner j ∈ l) then rd (body (owner j) m) j
              else rd m j.
Proof.
  intros Hlen Hframe Hlocal. induction l as [|a l IH] using rev_ind.
  { intros _. split; [done|]. intros j. rewrite decide_False; [done|].
    apply not_elem_of_nil. }
  intros (Ha & Hl & _)%NoDup_app.
  destruct (IH Ha) as (IHlen & IHrd).
  unfold par_for in *. rewrite fold_left_app. simpl. split.
  { by rewrite Hlen. }
  intros j. destruct (decide (owner j = a)) as [Ho|Ho].
  - rewrite decide_True by (apply elem_of_app; right; rewrite Ho; left).
    rewrite <- Ho. apply Hlocal; [done| |done].
    intros j' Hj'. rewrite IHrd, decide_False; [done|].
    rewrite Hj', Ho. intros Hin. apply (Hl a Hin). left.
  - rewrite Hframe by done. rewrite IHrd. apply decide_ext.
    rewrite elem_of_app, list_elem_of_singleton. tauto.
Qed.

Lemma par_for_any_order (body : nat -> list Z -> list Z) (owner : nat -> nat)
    (l l' : list nat) (m : list Z) :
  (forall id m, length (body id m) = length m) ->
  (forall id m j, owner j <> id -> rd (body id m) j = rd m j) ->
  (forall id m m', length m = length m' ->
     (forall j, owner j = id -> rd m j = rd m' j) ->
     forall j, owner j = id -> rd (body id m) j = rd (body id m') j) ->
  NoDup l -> l ≡ₚ l' ->
  par_for l body m = par_for l' body m.
Proof.
  intros Hlen Hframe Hlocal Hnd Hperm.
  assert (NoDup l') as Hnd' by (by rewrite <- Hperm).
  destruct (par_for_owner_list body owner l m Hlen Hframe Hlocal Hnd)
    as (H1 & H2).
  destruct (par_for_owner_list body owner l' m Hlen Hframe Hlocal Hnd')
    as (H1' & H2').
  apply list_eq_rd; [congruence|]. intros j _. rewrite H2, H2'.
  apply decide_ext. by rewrite Hperm.
Qed.

(** X1. In a step of the upsweep and in a step of the downsweep the
    threads work on disjoint chunks of the array: the array the step
    leaves is the same in whatever order the threads of the launch
    run. *)
Theorem sweep_steps_any_order (n d : nat) (l l' : list nat) (m : list Z) :
  NoDup l -> l ≡ₚ l' ->
  par_for l (upsweep_thread n d) m = par_for l' (upsweep_thread n d) m /\
  par_for l (downsweep_thread n d) m = par_for l' (downsweep_thread n d) m.
Proof.
  intros Hnd Hperm. split.
  - apply (par_for_any_order _ (chunk d)); try done.
    + apply upsweep_length.
    + apply (upsweep_frame n d n (le_n n)).
    + apply (upsweep_local n d n (le_n n)).
  - apply (par_for_any_order _ (chunk d)); try done.
    + apply downsweep_length.
    + apply (downsweep_frame n d n (le_n n)).
    + apply (downsweep_local n d n (le_n n)).
Qed.

Lemma sweep_steps_any_order_witness :
  par_for [0; 1; 2; 3] (upsweep_thread 4 0) [1; 2; 3; 4]%Z
  = par_for [2; 3; 1; 0] (upsweep_thread 4 0) [1; 2; 3; 4]%Z.
Proof.
  apply (sweep_steps_any_order 4 0 [0; 1; 2; 3] [2; 3; 1; 0]).
  - apply (bool_decide_unpack (NoDup [0; 1; 2; 3])). vm_compute. exact I.
  - apply (bool_decide_unpack ([0; 1; 2; 3] ≡ₚ [2; 3; 1; 0])).
    vm_compute. exact I.
Defined.

Lemma upsweep_thread_frame n d id m j :
  j ∉ sweep_slots d id -> rd (upsweep_thread n d id m) j = rd m j.
Proof.
  intros Hj. unfold upsweep_thread. case_match; [|done].
  rewrite rd_insert, decide_False; [done|]. intros [<- _]. apply Hj.
  unfold sweep_slots. right. left.
Qed.

Lemma downsweep_thread_frame n d id m j :
  j ∉ sweep_slots d id -> rd (downsweep_thread n d id m) j = rd m j.
Proof.
  intros Hj. unfold downsweep_thread. case_match; [|done]. cbv zeta.
  rewrite !rd_insert, !decide_False; [done| |].
  - intros [<- _]. apply Hj. unfold sweep_slots. left.
  - intros [<- _]. apply Hj. unfold sweep_slots. right. left.
Qed.

(** X2. On an array of [2^q] slots launched with blocks of [2^b] threads
    (the sizes the drivers use), every thread [id] that passes
    [id < n] stays inside the array: at every step of a sweep at which
    it is active it touches two slots, both inside the array, and no
    other slot; and in the last phase, when it is not the last thread
    of its block, it reads the next slot, which is inside the array as
    well. *)
Theorem kernel_accesses_in_bounds (b q id : nat) :
  id < 2 ^ q ->
  (forall d,
     d < ilog2ceil (if 2 ^ q <? 2 ^ b then 2 ^ q else 2 ^ b) ->
     id mod 2 ^ (d + 1) = 0 ->
     Forall (fun j => j < 2 ^ q) (sweep_slots d id) /\
     (forall m j, j ∉ sweep_slots d id ->
        rd (upsweep_thread (2 ^ q) d id m) j = rd m j /\
        rd (downsweep_thread (2 ^ q) d id m) j = rd m j)) /\
  (last_of_block (2 ^ b) (2 ^ q) id = false ->
   id + 1 < 2 ^ q /\
   forall idata reduction_sum odata,
     emit_thread (2 ^ b) (2 ^ q) idata reduction_sum id odata
     = <[id := rd idata (id + 1)]> odata).
Proof.
  intros Hid. split.
  - intros d. rewrite level_steps. intros Hd Hmod. split.
    + pose proof (chunk_fits q (d + 1) id ltac:(lia) Hid) as Hfit.
      rewrite Hmod in Hfit. pose proof (pow2_pos d) as Hp.
      rewrite pow2_S in *. unfold sweep_slots. rewrite pow2_S.
      repeat constructor; lia.
    + intros m j Hj. split.
      * by apply upsweep_thread_frame.
      * by apply downsweep_thread_frame.
  - intros Hlast. split.
    + unfold last_of_block in Hlast.
      apply orb_false_iff in Hlast as [_ Hl%Nat.eqb_neq]. lia.
    + intros idata reduction_sum odata. unfold emit_thread.
      rewrite Hlast. by apply Nat.ltb_lt in Hid as ->.
Qed.

Lemma kernel_accesses_in_bounds_witness :
  Forall (fun j => j < 2 ^ 3) (sweep_slots 1 4) /\ 1 + 1 < 2 ^ 3.
Proof.
  split.
  - destruct (kernel_accesses_in_bounds 2 3 4) as [Hs _]; [vm_compute; lia|].
    apply (Hs 1); [vm_compute; lia|reflexivity].
  - destruct (kernel_accesses_in_bounds 2 3 1) as [_ Hl]; [vm_compute; lia|].
    apply Hl. reflexivity.
Defined.

(** X3. The contract in the comment of kernScanInclusive, for an array of
    [2^q] slots launched with blocks of [2^b] threads: [odata] receives
    the inclusive scan of every block of [idata] (of the whole array
    when it is shorter than a block), and [idata] is left with the
    exclusive scan of every block. *)
Theorem kernScanInclusive_contract (b q : nat) (odata idata : list Z)
    (j : nat) :
  Forall int32 idata -> length idata = 2 ^ q -> length odata = 2 ^ q ->
  j < 2 ^ q ->
  length (kernScanInclusive (2 ^ (q - b)) (2 ^ b) (2 ^ q) odata idata).1
  = 2 ^ q /\
  length (kernScanInclusive (2 ^ (q - b)) (2 ^ b) (2 ^ q) odata idata).2
  = 2 ^ q /\
  rd (kernScanInclusive (2 ^ (q - b)) (2 ^ b) (2 ^ q) odata idata).1 j
  = wrap32 (psum idata (j - j mod 2 ^ min q b) (j mod 2 ^ min q b + 1)) /\
  rd (kernScanInclusive (2 ^ (q - b)) (2 ^ b) (2 ^ q) odata idata).2 j
  = wrap32 (psum idata (j - j mod 2 ^ min q b) (j mod 2 ^ min q b)).
Proof.
  intros Hint Hli Hlo Hj. rewrite kernScanInclusive_level by done.
  cbn [fst snd].
  rewrite length_block_inclusive, length_block_exclusive.
  rewrite rd_block_inclusive by lia. unfold block_exclusive.
  rewrite rd_map_seq by lia. done.
Qed.

Lemma kernScanInclusive_contract_witness :
  rd (kernScanInclusive (2 ^ (3 - 1)) (2 ^ 1) (2 ^ 3) (replicate 8 9%Z)
                        [1; 2; 3; 4; 5; 6; 7; 8]%Z).1 5
  = wrap32 (psum [1; 2; 3; 4; 5; 6; 7; 8]%Z (5 - 5 mod 2 ^ min 3 1)
                 (5 mod 2 ^ min 3 1 + 1)).
Proof.
  apply (kernScanInclusive_contract 1 3 (replicate 8 9%Z)
           [1; 2; 3; 4; 5; 6; 7; 8]%Z 5).
  - repeat constructor; unfold int32, int_min, int_max; lia.
  - reflexivity.
  - reflexivity.
  - simpl. lia.
Defined.

(** * Further properties of the level hierarchy *)

(** X4. For a padded length [2^p] and a block size [2^b >= 2] the [while]
    loop that counts the levels ends by its own condition (more fuel
    than [p] changes nothing) and counts [ceil(p / b)] levels, one when
    the array fits a single block. *)
Theorem num_scans_closed_form (b p fuel : nat) :
  1 <= b -> p <= fuel ->
  count_scans (2 ^ b) fuel (2 ^ p) 1 = max 1 ((p + b - 1) / b) /\
  num_scans_of (2 ^ b) (2 ^ p) = max 1 ((p + b - 1) / b).
Proof.
  intros Hb Hfuel.
  assert (num_scans_of (2 ^ b) (2 ^ p) = max 1 ((p + b - 1) / b)) as E.
  { destruct (num_scans_spec b Hb p) as (H1 & H2 & H3).
    set (K := num_scans_of (2 ^ b) (2 ^ p)) in *.
    destruct (decide (K = 1)) as [E1|E1].
    - rewrite E1 in *. simpl in H2.
      assert ((p + b - 1) / b < 2); [|lia].
      apply Nat.Div0.div_lt_upper_bound. lia.
    - specialize (H3 (K - 2) ltac:(lia)).
      assert ((p + b - 1) / b = K) as ->; [|lia].
      symmetry. apply (Nat.div_unique _ _ _ (p + b - 1 - K * b)).
      + assert (K * b = (K - 1) * b + b) by nia.
        assert ((K - 1) * b = (K - 2) * b + b) by nia. lia.
      + assert (K * b = (K - 1) * b + b) by nia.
        assert ((K - 1) * b = (K - 2) * b + b) by nia. lia. }
  split; [|done]. rewrite <- E. unfold num_scans_of.
  apply count_scans_fuel; [done|done|].
  apply Nat.lt_le_incl, Nat.pow_gt_lin_r. lia.
Qed.

Lemma num_scans_closed_form_witness :
  num_scans_of (2 ^ 2) (2 ^ 5) = max 1 ((5 + 2 - 1) / 2).
Proof. apply (num_scans_closed_form 2 5 5); lia. Defined.

(** X5. The arrays [scan] allocates form a chain: level 0 has the padded
    length, the three arrays of a level have the level's length, the
    grid of a level is its number of blocks, every level but the last
    consists of whole blocks and its number of blocks is the length of
    the next level, and the last level is a single block. *)
Theorem level_sizes_chain (b : nat) (junk : nat -> nat -> Z) (n : nat)
    (x : list Z) (i : nat) :
  1 <= b -> 0 < n -> (Z.of_nat n <= 2 ^ 30)%Z -> length x = n ->
  i < num_scans_of (2 ^ b) (pad_of n) ->
  array_sizes (scan_init (2 ^ b) junk n x) !!! 0 = pad_of n /\
  length (dev_idata (scan_init (2 ^ b) junk n x) !!! i)
  = array_sizes (scan_init (2 ^ b) junk n x) !!! i /\
  length (dev_odata (scan_init (2 ^ b) junk n x) !!! i)
  = array_sizes (scan_init (2 ^ b) junk n x) !!! i /\
  length (dev_buffer (scan_init (2 ^ b) junk n x) !!! i)
  = array_sizes (scan_init (2 ^ b) junk n x) !!! i /\
  grid_sizes (scan_init (2 ^ b) junk n x) !!! i
  = blocks_of (2 ^ b) (array_sizes (scan_init (2 ^ b) junk n x) !!! i) /\
  (S i < num_scans_of (2 ^ b) (pad_of n) ->
   array_sizes (scan_init (2 ^ b) junk n x) !!! S i
   = grid_sizes (scan_init (2 ^ b) junk n x) !!! i /\
   array_sizes (scan_init (2 ^ b) junk n x) !!! i
   = grid_sizes (scan_init (2 ^ b) junk n x) !!! i * 2 ^ b) /\
  (S i = num_scans_of (2 ^ b) (pad_of n) ->
   grid_sizes (scan_init (2 ^ b) junk n x) !!! i = 1).
Proof.
  intros Hb Hn Hfit Hx. unfold scan_init. cbv zeta.
  pose proof (pad_of_ge n Hn Hfit) as Hpad.
  rewrite (pad_of_exact n Hn Hfit) in *. set (p := ilog2ceil n) in *.
  pose proof (alloc_levels_wf b junk 0 p Hb) as Hwf.
  pose proof (alloc_levels_input0 b junk 0 p Hb) as Hin.
  destruct (num_scans_spec b Hb p) as (HK & Htop & Hlow).
  set (K := num_scans_of (2 ^ b) (2 ^ p)) in *.
  set (s := alloc_levels (2 ^ b) junk 0 K 0 (2 ^ p)) in *.
  intros Hi. cbn [array_sizes grid_sizes dev_idata dev_odata dev_buffer].
  destruct Hwf as (W1 & W2 & W3 & W4).
  destruct (W4 0 ltac:(lia)) as (Hs0 & _).
  destruct (W4 i Hi) as (Hsi & Hgi & Hii & Hoi & Hbi).
  rewrite Hs0, Hsi, Hgi, Hoi, Hbi.
  assert (level_size b p (S i) = blocks_of (2 ^ b) (level_size b p i)) as Hg.
  { unfold level_size. rewrite blocks_of_pow2 by done. f_equal. lia. }
  split_and!; try done.
  - unfold level_size. f_equal. lia.
  - destruct i as [|i].
    + rewrite list_lookup_total_insert_eq by lia. rewrite Hin.
      unfold cudaMemcpy.
      rewrite length_app, length_take, length_drop, length_cudaMalloc.
      unfold level_size. replace (p - 0 * b) with p by lia. lia.
    + by rewrite list_lookup_total_insert_ne by lia.
  - intros Hnext. destruct (W4 (S i) Hnext) as (-> & _). split; [done|].
    specialize (Hlow i ltac:(lia)). unfold level_size.
    rewrite (pow2_split b (p - i * b)) by lia. f_equal. f_equal. lia.
  - intros Hlast. unfold level_size.
    replace (K - 1) with i in Htop by lia.
    replace (p - S i * b) with 0 by lia. done.
Qed.

Lemma level_sizes_chain_witness :
  array_sizes (scan_init (2 ^ 1) (fun _ _ => 77%Z) 5 [1; 2; 3; 4; 5]%Z) !!! 1
  = grid_sizes (scan_init (2 ^ 1) (fun _ _ => 77%Z) 5 [1; 2; 3; 4; 5]%Z)
      !!! 0.
Proof.
  destruct (level_sizes_chain 1 (fun _ _ => 77%Z) 5 [1; 2; 3; 4; 5]%Z 0)
    as (_ & _ & _ & _ & _ & H & _).
  - lia.
  - lia.
  - lia.
  - reflexivity.
  - vm_compute. lia.
  - apply H. vm_compute. lia.
Defined.

(** X6. When the two kernel loops of [scan] are done, at every level i
    [dev_odata[i]] holds the exclusive scan of the level's input: the
    input of level 0 is [dev_idata[0]] as the loops found it, and the
    input of a higher level is the sums of the blocks of the level
    below. *)
Theorem downward_scans_every_level (b : nat) (junk : nat -> nat -> Z)
    (n : nat) (x : list Z) (i : nat) :
  1 <= b -> 0 < n -> (Z.of_nat n <= 2 ^ 30)%Z -> length x = n ->
  Forall int32 x -> i < num_scans_of (2 ^ b) (pad_of n) ->
  dev_odata (scan_levels (2 ^ b) junk n x) !!! i
  = exclusive_scan
      (level_input (2 ^ b) i (dev_idata (scan_init (2 ^ b) junk n x) !!! 0)).
Proof.
  intros Hb Hn Hfit Hx Hint.
  destruct (scan_init_wf b junk n x Hb Hn Hfit Hx Hint) as (Hwf & H0).
  destruct (level0_input (junk 0) n x Hx Hn Hfit Hint) as (Hl & Hi32 & _).
  unfold scan_levels. rewrite (pad_of_exact n Hn Hfit) in *.
  set (p := ilog2ceil n) in *. rewrite H0.
  set (in0 := cudaMemcpy (cudaMalloc (junk 0) (2 ^ p)) x n) in *.
  intros Hi.
  assert (up_done b p (num_scans_of (2 ^ b) (2 ^ p)) in0 0
            (scan_init (2 ^ b) junk n x)) as Hup.
  { split; [done|split]; [intros k Hk; lia|done]. }
  apply (upward_done b p in0 Hb Hl Hi32 (num_scans_of (2 ^ b) (2 ^ p)))
    in Hup; [|done].
  apply (up_done_down_done b p in0 Hb Hl) in Hup.
  apply (downward_done b p in0 Hb Hl) in Hup.
  destruct Hup as (_ & Hex & _). apply Hex. lia.
Qed.

Lemma downward_scans_every_level_witness :
  dev_odata (scan_levels (2 ^ 1) (fun _ _ => 77%Z) 4 [1; 2; 3; 4]%Z) !!! 1
  = exclusive_scan
      (level_input (2 ^ 1) 1
         (dev_idata (scan_init (2 ^ 1) (fun _ _ => 77%Z) 4 [1; 2; 3; 4]%Z)
            !!! 0)).
Proof.
  apply (downward_scans_every_level 1 (fun _ _ => 77%Z) 4 [1; 2; 3; 4]%Z 1).
  - lia.
  - lia.
  - lia.
  - reflexivity.
  - repeat constructor; unfold int32, int_min, int_max; lia.
  - vm_compute. lia.
Defined.

(** * Further properties of scan *)

(** X7. The first m results of [scan] depend on the first m inputs only:
    scanning a prefix of the input gives the prefix of the scan. *)
Theorem scan_of_prefix (b : nat) (junk junk' : nat -> nat -> Z) (n m : Z)
    (x : list Z) :
  1 <= b -> (0 < m <= n)%Z -> (n <= 2 ^ 30)%Z -> Z.of_nat (length x) = n ->
  Forall int32 x ->
  scan (2 ^ b) junk' m (take (Z.to_nat m) x)
  = take (Z.to_nat m) (scan (2 ^ b) junk n x).
Proof.
  intros Hb Hm Hn Hx Hint.
  rewrite (scan_is_exclusive_scan b junk n x) by (done || lia).
  rewrite (scan_is_exclusive_scan b junk' m (take (Z.to_nat m) x));
    [|done|lia|rewrite length_take; lia|by apply Forall_take].
  symmetry. apply exclusive_scan_prefix.
  - rewrite length_take. lia.
  - lia.
  - intros j Hj. by rewrite rd_take.
Qed.

Lemma scan_of_prefix_witness :
  scan (2 ^ 1) (fun _ _ => 5%Z) 2 (take (Z.to_nat 2) [1; 2; 3]%Z)
  = take (Z.to_nat 2) (scan (2 ^ 1) (fun _ _ => 77%Z) 3 [1; 2; 3]%Z).
Proof.
  apply (scan_of_prefix 1 (fun _ _ => 77%Z) (fun _ _ => 5%Z) 3 2
           [1; 2; 3]%Z).
  - lia.
  - lia.
  - lia.
  - reflexivity.
  - repeat constructor; unfold int32, int_min, int_max; lia.
Defined.

(** * Further properties of compact *)

Lemma compact_run_tail b junk n x j :
  1 <= b -> 0 < n -> (Z.of_nat n <= 2 ^ 30)%Z -> length x = n ->
  count_nonzero x <= j < pad_of n ->
  rd (c_odata (compact_run (2 ^ b) junk n x)) j = wrap32 (junk 1 j).
Proof.
  intros Hb Hn Hfit Hx Hj.
  pose proof (pad_of_ge n Hn Hfit) as Hpad.
  destruct (compact_run_parts b junk n x Hb Hn Hfit Hx)
    as (Hi & _ & _ & _ & -> & _).
  assert (length (padded (pad_of n) x) = pad_of n) as Hlp
    by (apply padded_length; lia).
  pose proof (scatter_prefix (pad_of n)
                (c_idata (compact_run (2 ^ b) junk n x))
                (c_bools (compact_run (2 ^ b) junk n x))
                (c_indices (compact_run (2 ^ b) junk n x))
                (cudaMalloc (junk 1) (pad_of n))) as H.
  rewrite Hi in *.
  specialize (H Hlp (length_cudaMalloc _ _)).
  specialize (H (compact_run_bools b junk n x Hb Hn Hfit Hx)).
  assert (forall id, id < pad_of n ->
            rd (c_indices (compact_run (2 ^ b) junk n x)) id
            = Z.of_nat (kept_before (padded (pad_of n) x) id)) as Hidx.
  { intros id Hid.
    by rewrite (compact_run_indices b junk n x Hb Hn Hfit Hx),
      kept_before_padded. }
  specialize (H Hidx (2 ^ (ilog2ceil n - b) * 2 ^ b)). cbv zeta in H.
  destruct H as (_ & _ & H3). unfold launch.
  pose proof (level_cover b (ilog2ceil n)) as Hc.
  rewrite <- (pad_of_exact n Hn Hfit) in Hc.
  rewrite kept_before_all in H3 by lia.
  unfold count_nonzero in H3 at 1 2. rewrite !filter_padded in H3.
  fold (count_nonzero x) in H3.
  assert (forall l : list Z, rd l j
            = rd (drop (count_nonzero x) l) (j - count_nonzero x)) as Hd.
  { intros l. unfold rd. rewrite lookup_drop. do 2 f_equal. lia. }
  rewrite Hd, H3, <- Hd. unfold cudaMalloc. by rewrite rd_map_seq by lia.
Qed.

(** X8. Beyond the kept elements, the n elements that [compact] copies to
    the caller are what the fresh device array [dev_odata] held: the
    array is never initialised and the scatter writes to the first
    keptCount slots only. *)
Theorem compact_tail_uninitialised (b : nat) (junk : nat -> nat -> Z)
    (n : Z) (x : list Z) (j : nat) :
  1 <= b -> (0 < n <= 2 ^ 30)%Z -> Z.of_nat (length x) = n ->
  count_nonzero x <= j < length x ->
  rd (compact (2 ^ b) junk n x).1 j = wrap32 (junk 1 j).
Proof.
  intros Hb Hn Hx Hj. unfold compact.
  destruct (n <=? 0)%Z eqn:E; [lia|]. clear E. cbn [fst snd].
  assert (0 < Z.to_nat n) as Hn' by lia.
  assert (Z.of_nat (Z.to_nat n) <= 2 ^ 30)%Z as Hfit by lia.
  assert (length x = Z.to_nat n) as Hx' by lia.
  pose proof (pad_of_ge _ Hn' Hfit) as Hpad.
  rewrite rd_take by lia. apply compact_run_tail; try done. lia.
Qed.

Lemma compact_tail_uninitialised_witness :
  rd (compact (2 ^ 1) (fun a i => Z.of_nat (10 * a + i)) 5
              [4; 0; 0; 6; 1]%Z).1 4
  = wrap32 14.
Proof.
  apply (compact_tail_uninitialised 1 (fun a i => Z.of_nat (10 * a + i)) 5
           [4; 0; 0; 6; 1]%Z 4).
  - lia.
  - lia.
  - reflexivity.
  - vm_compute. lia.
Defined.

(** X9. The loops that [compact] repeats from [scan] compute what [scan]
    computes: the destination indices of the n input slots are the
    result of [scan] on the n keep flags, and the flag of a slot is 1
    when the input there is not 0, else 0. *)
Theorem compact_indices_are_scan_of_mask (b : nat)
    (junk junk' : nat -> nat -> Z) (n : Z) (x : list Z) :
  1 <= b -> (0 < n <= 2 ^ 30)%Z -> Z.of_nat (length x) = n ->
  take (Z.to_nat n) (c_bools (compact_run (2 ^ b) junk (Z.to_nat n) x))
  = mask_of (length x) x /\
  take (Z.to_nat n) (c_indices (compact_run (2 ^ b) junk (Z.to_nat n) x))
  = scan (2 ^ b) junk' n (mask_of (length x) x).
Proof.
  intros Hb Hn Hx.
  assert (0 < Z.to_nat n) as Hn' by lia.
  assert (Z.of_nat (Z.to_nat n) <= 2 ^ 30)%Z as Hfit by lia.
  assert (length x = Z.to_nat n) as Hx' by lia.
  pose proof (pad_of_ge _ Hn' Hfit) as Hpad.
  destruct (compact_run_parts b junk _ x Hb Hn' Hfit Hx')
    as (_ & Hbools & _ & Hidx & _).
  rewrite Hidx, Hbools. rewrite <- Hx' in *.
  assert (forall j, j < length x ->
            rd (mask_of (pad_of (length x)) (padded (pad_of (length x)) x)) j
            = rd (mask_of (length x) x) j) as Hm.
  { intros j Hj. rewrite !rd_mask_of by lia. by rewrite rd_padded_lt. }
  split.
  - apply list_eq_rd.
    { rewrite length_take, !length_mask_of. lia. }
    intros j. rewrite length_take, length_mask_of. intros Hj.
    rewrite rd_take by lia. apply Hm. lia.
  - rewrite scan_is_exclusive_scan;
      [|done|lia|rewrite length_mask_of; lia|apply mask_of_int32].
    apply exclusive_scan_prefix.
    + apply length_mask_of.
    + rewrite length_mask_of. lia.
    + done.
Qed.

Lemma compact_indices_are_scan_of_mask_witness :
  take (Z.to_nat 5)
    (c_indices (compact_run (2 ^ 1) (fun _ _ => 77%Z) (Z.to_nat 5)
                            [4; 0; 0; 6; 1]%Z))
  = scan (2 ^ 1) (fun _ _ => 5%Z) 5 (mask_of 5 [4; 0; 0; 6; 1]%Z).
Proof.
  apply (compact_indices_are_scan_of_mask 1 (fun _ _ => 77%Z)
           (fun _ _ => 5%Z) 5 [4; 0; 0; 6; 1]%Z).
  - lia.
  - lia.
  - reflexivity.
Defined.

Lemma compact_result b junk n x :
  1 <= b -> (0 < n <= 2 ^ 30)%Z -> Z.of_nat (length x) = n ->
  (compact (2 ^ b) junk n x).2 = Z.of_nat (count_nonzero x) /\
  length (compact (2 ^ b) junk n x).1 = length x /\
  take (count_nonzero x) (compact (2 ^ b) junk n x).1
  = filter (fun v => v <> 0%Z) x.
Proof.
  intros Hb Hn Hx. unfold compact.
  destruct (n <=? 0)%Z eqn:E; [lia|]. clear E. cbn [fst snd].
  assert (0 < Z.to_nat n) as Hn' by lia.
  assert (Z.of_nat (Z.to_nat n) <= 2 ^ 30)%Z as Hint by lia.
  assert (length x = Z.to_nat n) as Hx' by lia.
  destruct (compact_run_len b junk _ x Hb Hn' Hint Hx') as (_ & Hlen).
  destruct (compact_run_odata b junk _ x Hb Hn' Hint Hx') as (Hl & Hout).
  pose proof (pad_of_ge _ Hn' Hint) as Hpad.
  pose proof (count_nonzero_le x) as Hc.
  split_and!; [done| |].
  - rewrite length_take. lia.
  - rewrite take_take. replace (_ `min` _) with (count_nonzero x) by lia.
    done.
Qed.

Lemma filter_nonzero_all (x : list Z) :
  Forall (fun v => v <> 0%Z) x -> filter (fun v => v <> 0%Z) x = x.
Proof.
  induction 1 as [|a x Ha _ IH]; [done|].
  rewrite filter_cons_True by done. by rewrite IH.
Qed.

Lemma filter_nonzero_Forall (x : list Z) :
  Forall (fun v => v <> 0%Z) (filter (fun v => v <> 0%Z) x).
Proof.
  apply Forall_forall. intros v Hv. by apply list_elem_of_filter in Hv as [? _].
Qed.

(** X10. An input without a 0 comes back from [compact] unchanged, with
    count n: once nothing is dropped, no uninitialised slot is left in
    the n elements copied out. *)
Theorem compact_nothing_to_drop (b : nat) (junk : nat -> nat -> Z)
    (n : Z) (x : list Z) :
  1 <= b -> (0 < n <= 2 ^ 30)%Z -> Z.of_nat (length x) = n ->
  Forall (fun v => v <> 0%Z) x ->
  compact (2 ^ b) junk n x = (x, n).
Proof.
  intros Hb Hn Hx Hall.
  destruct (compact_result b junk n x Hb Hn Hx) as (Hc & Hl & Ht).
  assert (count_nonzero x = length x) as Hcnt.
  { unfold count_nonzero. by rewrite filter_nonzero_all. }
  rewrite Hcnt in Hc, Ht. rewrite filter_nonzero_all in Ht by done.
  rewrite take_ge in Ht by lia.
  destruct (compact (2 ^ b) junk n x) as [o c]. cbn [fst snd] in *.
  f_equal; [done|lia].
Qed.

Lemma compact_nothing_to_drop_witness :
  compact (2 ^ 1) (fun _ _ => 9%Z) 3 [5; -2; 7]%Z = ([5; -2; 7]%Z, 3%Z).
Proof.
  apply (compact_nothing_to_drop 1 (fun _ _ => 9%Z) 3 [5; -2; 7]%Z).
  - lia.
  - lia.
  - reflexivity.
  - repeat constructor; lia.
Defined.

(** X11. Compacting twice changes nothing more: [compact] run again on
    the kept elements, with their count as n, returns the same count and
    the same elements, for any block size and any old content of device
    memory in either run. When nothing was kept the second call gets
    n = 0 and returns 0 at once. *)
Theorem compact_twice (b b' : nat) (junk junk' : nat -> nat -> Z)
    (n : Z) (x : list Z) :
  1 <= b -> 1 <= b' -> (0 < n <= 2 ^ 30)%Z -> Z.of_nat (length x) = n ->
  let r := compact (2 ^ b) junk n x in
  let kept := take (Z.to_nat r.2) r.1 in
  (compact (2 ^ b') junk' r.2 kept).2 = r.2 /\
  take (Z.to_nat r.2) (compact (2 ^ b') junk' r.2 kept).1 = kept.
Proof.
  intros Hb Hb' Hn Hx r kept. subst kept r.
  destruct (compact_result b junk n x Hb Hn Hx) as (Hc & Hl & Ht).
  pose proof (count_nonzero_le x) as Hle.
  rewrite Hc, Nat2Z.id, Ht.
  destruct (decide (count_nonzero x = 0)) as [E|E].
  - assert (filter (fun v => v <> 0%Z) x = []) as ->
      by (by apply nil_length_inv).
    rewrite E. unfold compact.
    replace (Z.of_nat 0 <=? 0)%Z with true by done. cbn [fst snd]. done.
  - assert (length (filter (fun v => v <> 0%Z) x) = count_nonzero x)
      as Hlen by done.
    pose proof (filter_nonzero_Forall x) as Hall.
    assert (0 < Z.of_nat (count_nonzero x) <= 2 ^ 30)%Z as Hk by lia.
    destruct (compact_result b' junk' (Z.of_nat (count_nonzero x))
                (filter (fun v => v <> 0%Z) x) Hb' Hk (f_equal Z.of_nat Hlen))
      as (Hc' & Hl' & Ht').
    assert (count_nonzero (filter (fun v => v <> 0%Z) x) = count_nonzero x)
      as Hcnt by (unfold count_nonzero; by rewrite filter_nonzero_all).
    rewrite Hcnt in Hc', Ht'.
    rewrite (filter_nonzero_all (filter _ x)) in Ht' by done.
    by split.
Qed.

Lemma compact_twice_witness :
  let r := compact (2 ^ 1) (fun _ _ => 9%Z) 5 [4; 0; 0; 6; 1]%Z in
  (compact (2 ^ 2) (fun _ _ => 3%Z) r.2 (take (Z.to_nat r.2) r.1)).2 = r.2.
Proof.
  apply (compact_twice 1 2 (fun _ _ => 9%Z) (fun _ _ => 3%Z) 5
           [4; 0; 0; 6; 1]%Z).
  - lia.
  - lia.
  - lia.
  - reflexivity.
Defined.

(** * thrust.cu *)

Lemma psum_cons a (l : list Z) k :
  psum (a :: l) 0 (S k) = (a + psum l 0 k)%Z.
Proof. done. Qed.

Lemma exclusive_scan_from_psum acc l :
  int32 acc ->
  exclusive_scan_from acc l
  = map (fun k => wrap32 (acc + psum l 0 k)) (seq 0 (length l)).
Proof.
  revert acc. induction l as [|a l IH]; intros acc Hacc; [done|].
  cbn [exclusive_scan_from length seq map]. f_equal.
  - rewrite psum_0, Z.add_0_r. by rewrite wrap32_id.
  - rewrite IH by apply wrap32_int32.
    rewrite <- fmap_S_seq, <- list_fmap_compose.
    apply list_fmap_ext. intros _ k _. cbn [compose].
    rewrite psum_cons. unfold add32. rewrite wrap32_add_l. f_equal. lia.
Qed.

(** X12. [Thrust::scan] and [Efficient::scan] return the same n elements:
    with [thrust::exclusive_scan] on [int] read as the left-to-right
    running sum from 0, the work-efficient scan agrees with it for any
    block size, whatever [odata] and device memory held before. *)
Theorem thrust_scan_matches_efficient (b : nat) (junk : nat -> nat -> Z)
    (n : Z) (odata x : list Z) :
  1 <= b -> (0 < n <= 2 ^ 30)%Z -> Z.of_nat (length x) = n ->
  Forall int32 x ->
  Thrust.scan n odata x = scan (2 ^ b) junk n x.
Proof.
  intros Hb Hn Hx Hi.
  rewrite scan_is_exclusive_scan by (done || lia).
  unfold Thrust.scan, cudaMemcpy.
  rewrite (take_ge x) by lia.
  rewrite exclusive_scan_from_psum by done.
  rewrite take_ge by (rewrite length_map, length_seq; lia).
  rewrite drop_ge by (rewrite length_take; lia).
  rewrite app_nil_r. unfold exclusive_scan.
  apply list_fmap_ext. intros _ k _. f_equal.
Qed.

Lemma thrust_scan_matches_efficient_witness :
  Thrust.scan 5 [0; 0; 0; 0; 0]%Z [3; 1; 4; 1; 5]%Z
  = scan (2 ^ 1) (fun _ _ => 7%Z) 5 [3; 1; 4; 1; 5]%Z.
Proof.
  apply (thrust_scan_matches_efficient 1 (fun _ _ => 7%Z) 5
           [0; 0; 0; 0; 0]%Z [3; 1; 4; 1; 5]%Z).
  - lia.
  - lia.
  - reflexivity.
  - repeat constructor; unfold int32, int_min, int_max; lia.
Defined.
